(** * Advisory lock files: a shallow embedding of [lockfile.py]

    The module under study wraps [fcntl.flock] in three layers: the class
    [LockFile] (one non-blocking attempt, and the release), the context
    manager [lockfile] (bounded retry, guaranteed release) and the decorator
    [lockfunc] (run a function only while the lock is held).

    The operating system is modelled as an explicit state: a flat name space
    from paths to inodes, the text stored in each inode, and the table of
    open file descriptions with the [flock] lock each one holds.  Python code
    becomes a computation in a small state, trace and exception monad. *)

From Stdlib Require Import ZArith.
From stdpp Require Import gmap strings list fin_maps.

Open Scope Z_scope.

(** ** Python values and exceptions *)

Module Py.

(** The values that reach the module through its arguments. [VExc] stands for
    an exception class or instance, named by its class. *)
Inductive PyVal :=
| VNone
| VBool (b : bool)
| VInt (n : Z)
| VStr (s : string)
| VExc (cls : string).

(** Python's truth value testing, as used by [if], [and] and [or]. *)
Definition truthy (v : PyVal) : bool :=
  match v with
  | VNone => false
  | VBool b => b
  | VInt n => negb (n =? 0)
  | VStr s => negb (String.eqb s "")
  | VExc _ => true
  end.

Definition is_exception (v : PyVal) : bool :=
  match v with VExc _ => true | _ => false end.

Inductive Errno := ENOENT | EAGAIN | EBADF | EINVAL.

Inductive Exn :=
| LockError (name : string)   (* LockError("Couldn't lock %r" % name) *)
| OSError (errno : Errno)     (* IOError and OSError of the os layer *)
| TypeError
| IndexError
| Raised (v : PyVal).         (* [raise v] for an exception value [v] *)

End Py.
Export Py.

(** ** The operating system *)

Module Sys.

(** [fcntl] constants, with their Linux values. *)
Definition LOCK_SH : Z := 1.
Definition LOCK_EX : Z := 2.
Definition LOCK_NB : Z := 4.
Definition LOCK_UN : Z := 8.

Inductive LockState := Unlocked | LockedSh | LockedEx.

(** An open file description: the inode it refers to, the name it was opened
    under, and the [flock] lock it holds. *)
Record Handle := mkHandle {
  h_ino : nat;
  h_name : string;
  h_lock : LockState
}.

(** A [LockFile] instance; [self_f] is [None] once released. *)
Record LockFileObj := mkLockFile {
  self_f : option nat;
  self_path : string;
  self_shared : bool;
  self_cleanup : bool
}.

(** What other processes do while this one sleeps: take a lock through
    [LockFile], release one through [LockFile.close], or unlink a path. The
    last also stands for a release that unlinks the name between the [open]
    and the [flock] of another process's attempt, which then holds a lock on
    a file without a name. *)
Inductive Action :=
| ActAcquire (p : string) (shared : bool)
| ActRelease (l : nat)
| ActRemove (p : string).

(** The file system ([names], [files]), the open file descriptions of all
    processes ([handles]), the [LockFile] objects ([heap]), the time, and the
    turns the other processes have yet to take. *)
Record State := mkState {
  names : gmap string nat;
  files : gmap nat string;
  handles : gmap nat Handle;
  heap : gmap nat LockFileObj;
  clock : N;
  pending : list (list Action)
}.

Inductive Event :=
| EvOpen (p : string) (fd : nat)
| EvFlock (fd : nat) (op : Z) (ok : bool)
| EvRemove (p : string) (ok : bool)
| EvClose (fd : nat)
| EvSleep (d : N).

End Sys.
Export Sys.

#[global] Instance LockState_eq_dec : EqDecision LockState.
Proof. solve_decision. Defined.

(** ** The monad: state, trace of system calls, exceptions *)

Inductive Res (A : Type) :=
| Val (a : A)
| Exc (e : Exn)
| Hang.
Arguments Val {A} a.
Arguments Exc {A} e.
Arguments Hang {A}.

Definition M (A : Type) : Type := State -> Res A * State * list Event.

Definition ret {A} (a : A) : M A := fun s => (Val a, s, []).

Definition raise {A} (e : Exn) : M A := fun s => (Exc e, s, []).

Definition bind {A B} (m : M A) (k : A -> M B) : M B := fun s =>
  match m s with
  | (Val a, s1, t1) => let '(r, s2, t2) := k a s1 in (r, s2, t1 ++ t2)
  | (Exc e, s1, t1) => (Exc e, s1, t1)
  | (Hang, s1, t1) => (Hang, s1, t1)
  end.

Notation "x <- m ;; k" := (bind m (fun x => k))
  (at level 62, m at next level, right associativity).
Notation "m ;;; k" := (bind m (fun _ => k))
  (at level 62, right associativity).

(** [try: m except E: h], where [catches] tells the exceptions of class [E]. *)
Definition try_except {A} (m : M A) (catches : Exn -> bool) (h : Exn -> M A) : M A :=
  fun s =>
  match m s with
  | (Exc e, s1, t1) =>
      if catches e then let '(r, s2, t2) := h e s1 in (r, s2, t1 ++ t2)
      else (Exc e, s1, t1)
  | other => other
  end.

(** [try: m except E: h else: els]; [els] runs outside the handler's reach. *)
Definition try_except_else {A B} (m : M A) (catches : Exn -> bool)
    (h : Exn -> M B) (els : M B) : M B := fun s =>
  match m s with
  | (Val _, s1, t1) => let '(r, s2, t2) := els s1 in (r, s2, t1 ++ t2)
  | (Exc e, s1, t1) =>
      if catches e then let '(r, s2, t2) := h e s1 in (r, s2, t1 ++ t2)
      else (Exc e, s1, t1)
  | (Hang, s1, t1) => (Hang, s1, t1)
  end.

(** [try: m finally: fin]. The outcome of [m] stands unless [fin] raises. *)
Definition try_finally {A} (m : M A) (fin : M unit) : M A := fun s =>
  match m s with
  | (Hang, s1, t1) => (Hang, s1, t1)
  | (r, s1, t1) =>
      match fin s1 with
      | (Val _, s2, t2) => (r, s2, t1 ++ t2)
      | (Exc e, s2, t2) => (Exc e, s2, t1 ++ t2)
      | (Hang, s2, t2) => (Hang, s2, t1 ++ t2)
      end
  end.


(** ** System calls *)

Definition set_names (f : gmap string nat -> gmap string nat) (s : State) : State :=
  mkState (f (names s)) (files s) (handles s) (heap s) (clock s) (pending s).

Definition set_handles (f : gmap nat Handle -> gmap nat Handle) (s : State) : State :=
  mkState (names s) (files s) (f (handles s)) (heap s) (clock s) (pending s).

Definition set_heap (f : gmap nat LockFileObj -> gmap nat LockFileObj) (s : State) : State :=
  mkState (names s) (files s) (handles s) (f (heap s)) (clock s) (pending s).

(** The identifiers handed out next: a descriptor not in use, an inode that
    never existed, a reference to no object. *)
Definition new_fd (s : State) : nat := fresh (dom (handles s)).
Definition new_ino (s : State) : nat := fresh (dom (files s)).
Definition new_loc (s : State) : nat := fresh (dom (heap s)).

(** [open(p, 'a')]: the file is created empty when the name is free, and an
    existing file keeps its text. Paths are flat names, so the call always
    returns a handle. *)
Definition os_open_append (p : string) : M nat := fun s =>
  let fd := new_fd s in
  match names s !! p with
  | Some ino =>
      (Val fd, set_handles <[fd := mkHandle ino p Unlocked]> s, [EvOpen p fd])
  | None =>
      let ino := new_ino s in
      (Val fd,
       mkState (<[p := ino]> (names s)) (<[ino := ""]> (files s))
               (<[fd := mkHandle ino p Unlocked]> (handles s))
               (heap s) (clock s) (pending s),
       [EvOpen p fd])
  end.

(** [f.close()]: the open file description goes away, and its lock with it. *)
Definition file_close (fd : nat) : M unit := fun s =>
  (Val tt, set_handles (delete fd) s, [EvClose fd]).

(** [os.remove(p)]: unlinks the name; the inode lives on for the handles that
    still refer to it. A free name is an error. *)
Definition os_remove (p : string) : M unit := fun s =>
  match names s !! p with
  | Some _ => (Val tt, set_names (delete p) s, [EvRemove p true])
  | None => (Exc (OSError ENOENT), s, [EvRemove p false])
  end.

(** Two locks on one inode are compatible only when both are shared. *)
Definition conflicts (req held : LockState) : bool :=
  match req, held with
  | LockedEx, LockedSh | LockedEx, LockedEx | LockedSh, LockedEx => true
  | _, _ => false
  end.

(** Some other open file description holds a lock on [ino] that excludes
    [req]. Locks belong to open file descriptions: two handles of one process
    on the same file exclude each other like those of two processes. *)
Definition contended (s : State) (fd ino : nat) (req : LockState) : bool :=
  bool_decide (map_Exists
    (λ (fd' : nat) (h' : Handle),
       fd' ≠ fd ∧ h_ino h' = ino ∧ conflicts req (h_lock h') = true)
    (handles s)).

Definition set_lock (fd : nat) (h : Handle) (l : LockState) (s : State) : State :=
  set_handles <[fd := mkHandle (h_ino h) (h_name h) l]> s.

(** The operation without its [LOCK_NB] bit. *)
Definition decode_op (op : Z) : option LockState :=
  let kind := Z.land op (Z.lnot LOCK_NB) in
  if kind =? LOCK_SH then Some LockedSh
  else if kind =? LOCK_EX then Some LockedEx
  else if kind =? LOCK_UN then Some Unlocked
  else None.

(** [fcntl.flock(fd, op)]. Asking again for the lock already held changes
    nothing. A conversion first drops the lock held and then asks for the new
    one, so a refused conversion leaves the handle unlocked. Without
    [LOCK_NB] a refused request waits. *)
Definition flock (fd : nat) (op : Z) : M unit := fun s =>
  match handles s !! fd with
  | None => (Exc (OSError EBADF), s, [EvFlock fd op false])
  | Some h =>
      match decode_op op with
      | None => (Exc (OSError EINVAL), s, [EvFlock fd op false])
      | Some req =>
          if decide (h_lock h = req) then (Val tt, s, [EvFlock fd op true])
          else if contended s fd (h_ino h) req then
            if Z.testbit op 2
            then (Exc (OSError EAGAIN), set_lock fd h Unlocked s,
                  [EvFlock fd op false])
            else (Hang, set_lock fd h Unlocked s, [])
          else (Val tt, set_lock fd h req s, [EvFlock fd op true])
      end
  end.

(** ** [lockfile.py] *)

Definition _shared : Z := Z.lor LOCK_SH LOCK_NB.
Definition _exclusive : Z := Z.lor LOCK_EX LOCK_NB.

Definition is_OSError (e : Exn) : bool :=
  match e with OSError _ => true | _ => false end.

Definition is_LockError (e : Exn) : bool :=
  match e with LockError _ => true | _ => false end.

Definition alloc (o : LockFileObj) : M nat := fun s =>
  let l := new_loc s in
  (Val l, set_heap <[l := o]> s, []).

(** [LockFile.__init__(self, path, shared=False, cleanup=True)]; the result is
    the reference to the new instance. *)
Definition LockFile_init (path : string) (shared cleanup : bool) : M nat :=
  f <- os_open_append path ;;
  try_except (flock f (if shared then _shared else _exclusive))
             is_OSError
             (fun _ => file_close f ;;; raise (LockError path)) ;;;
  alloc (mkLockFile (Some f) path shared cleanup).

Definition load (self : nat) : M (option LockFileObj) := fun s =>
  (Val (heap s !! self), s, []).

Definition store (self : nat) (o : LockFileObj) : M unit := fun s =>
  (Val tt, set_heap <[self := o]> s, []).

(** [LockFile.close(self)]. A reference to no instance cannot arise from the
    module; it is treated like a released lock. *)
Definition LockFile_close (self : nat) : M unit :=
  o <- load self ;;
  match o with
  | None => ret tt
  | Some o =>
      match self_f o with
      | None => ret tt
      | Some f =>
          (if self_cleanup o && self_shared o then
             (* remove only if there are no other shared locks *)
             try_except_else (flock f _exclusive) is_OSError
                             (fun _ => ret tt)
                             (os_remove (self_path o))
           else if self_cleanup o then os_remove (self_path o)
           else ret tt) ;;;
          (* closing the file handle releases the lock *)
          file_close f ;;;
          store self (mkLockFile None (self_path o) (self_shared o)
                                 (self_cleanup o))
      end
  end.

(** ** The other processes, and [time.sleep] *)

Definition run_action (s : State) (a : Action) : State :=
  match a with
  | ActAcquire p sh => (LockFile_init p sh true s).1.2
  | ActRelease l => (LockFile_close l s).1.2
  | ActRemove p => (os_remove p s).1.2
  end.

(** While the caller sleeps the clock advances and the other processes take
    their next turn. *)
Definition time_sleep (d : N) : M unit := fun s =>
  let s1 := mkState (names s) (files s) (handles s) (heap s)
                    (clock s + d)%N (tail (pending s)) in
  (Val tt, foldl run_action s1 (default [] (head (pending s))), [EvSleep d]).

(** ** The context manager and the decorator *)

(** [path + '.lock'], defined on strings only. *)
Definition add_lock_suffix (path : PyVal) : M string :=
  match path with
  | VStr p => ret (p +:+ ".lock")
  | _ => raise TypeError
  end.

(** [raise error]. *)
Definition py_raise {A} (error : PyVal) : M A :=
  if is_exception error then raise (Raised error) else raise TypeError.

Definition is_None {A} (o : option A) : bool :=
  match o with None => true | Some _ => false end.

(** The [while] loop of [lockfile]; [fuel] bounds the number of iterations. *)
Fixpoint lockfile_loop (fuel : nat) (path : string) (shared : bool)
    (retry_delay : N) (max_tries tries : Z) (lock : option nat)
    : M (option nat) :=
  if is_None lock && (tries <=? max_tries) then
    match fuel with
    | O => fun s => (Hang, s, [])
    | S fuel' =>
        st <- try_except
                (l <- LockFile_init path shared true ;; ret (Some l, tries))
                is_LockError
                (fun _ =>
                   let tries := tries + 1 in
                   (if tries <=? max_tries then time_sleep retry_delay
                    else ret tt) ;;;
                   ret (None, tries)) ;;
        lockfile_loop fuel' path shared retry_delay max_tries st.2 st.1
    end
  else ret lock.

(** Lines 75 to 86 of [lockfile]: the lock-file name and the retry loop. *)
Definition lockfile_acquire (path : PyVal) (max_retries : Z) (retry_delay : N)
    (shared : bool) : M (option nat) :=
  let tries := 1 in
  let max_tries := 1 + max_retries in
  path <- add_lock_suffix path ;;
  lockfile_loop (Z.to_nat max_tries) path shared retry_delay max_tries tries None.

(** [with lockfile(path, max_retries, retry_delay, shared, error) as lock:
    block]. The generator runs up to its [yield], the block runs with the
    value yielded, and the block's outcome (falling off its end, a [return],
    an exception) re-enters the generator at the [yield], inside [try]. *)
Definition lockfile {R} (path : PyVal) (max_retries : Z) (retry_delay : N)
    (shared : bool) (error : PyVal) (block : option nat -> M R) : M R :=
  lock <- lockfile_acquire path max_retries retry_delay shared ;;
  try_finally
    (if truthy error && is_None lock then py_raise error else block lock)
    (match lock with
     | Some l => LockFile_close l
     | None => ret tt
     end).

Definition Args : Type := list PyVal.
Definition Kwargs : Type := list (string * PyVal).

(** [path or args[0]]. *)
Definition path_or_first (path : PyVal) (args : Args) : M PyVal :=
  if truthy path then ret path
  else match args with
       | a :: _ => ret a
       | [] => raise IndexError
       end.

(** [lockfunc(path, max_retries, retry_delay, shared, marker, error)(func)],
    the [wrapper] closure. *)
Definition lockfunc (path : PyVal) (max_retries : Z) (retry_delay : N)
    (shared : bool) (marker error : PyVal)
    (func : Args -> Kwargs -> M PyVal) : Args -> Kwargs -> M PyVal :=
  fun args kwargs =>
    _path <- path_or_first path args ;;
    lockfile _path max_retries retry_delay shared error
      (fun lock =>
         if is_None lock then ret marker
         else func args kwargs).

(** The defaults of the keyword arguments. *)
Definition default_max_retries : Z := 10.
Definition default_retry_delay : N := 1.

(** ** Vocabulary of the statements *)

Definition result {A} (x : Res A * State * list Event) : Res A := x.1.1.
Definition final {A} (x : Res A * State * list Event) : State := x.1.2.
Definition trace {A} (x : Res A * State * list Event) : list Event := x.2.

(** The request [LockFile] makes, and the lock it leaves on the handle. *)
Definition lock_op (shared : bool) : Z := if shared then _shared else _exclusive.
Definition lock_mode (shared : bool) : LockState :=
  if shared then LockedSh else LockedEx.

(** The state right after [open(path, 'a')], and the inode it opened. *)
Definition opened (path : string) (s : State) : State :=
  final (os_open_append path s).
Definition opened_ino (path : string) (s : State) : nat :=
  default (new_ino s) (names s !! path).

(** Whether the exclusive request of [close] on handle [f] is granted: the
    handle is open, and it holds the exclusive lock already or no other handle
    holds any lock on its inode. *)
Definition upgrade_ok (s : State) (f : nat) : bool :=
  match handles s !! f with
  | None => false
  | Some h =>
      bool_decide (h_lock h = LockedEx)
      || negb (contended s f (h_ino h) LockedEx)
  end.
Definition after_upgrade (f : nat) (s : State) : State :=
  final (flock f _exclusive s).

(** The state once a held lock is let go: handle closed, [_f] reset. *)
Definition released (self : nat) (o : LockFileObj) (f : nat) (s : State) : State :=
  set_heap <[self := mkLockFile None (self_path o) (self_shared o)
                                (self_cleanup o)]>
           (set_handles (delete f) s).

(** The system calls of one [LockFile(path, shared)] call. *)
Definition attempt_ok (path : string) (shared : bool) (t : list Event) : Prop :=
  ∃ fd, t = [EvOpen path fd; EvFlock fd (lock_op shared) true].
Definition attempt_failed (path : string) (shared : bool) (t : list Event) : Prop :=
  ∃ fd, t = [EvOpen path fd; EvFlock fd (lock_op shared) false; EvClose fd].

(** Object [l] is a held lock on [p]: its handle is open on the inode that the
    name [p] denotes and carries the lock of the requested mode. *)
Definition holds (s : State) (l : nat) (p : string) (shared : bool) : Prop :=
  ∃ fd h, heap s !! l = Some (mkLockFile (Some fd) p shared true)
          ∧ handles s !! fd = Some h
          ∧ h_name h = p
          ∧ h_lock h = lock_mode shared
          ∧ names s !! p = Some (h_ino h).


(** The state a refused attempt leaves: the file exists, nothing else moved. *)
Definition refused (p : string) (s : State) : State :=
  set_handles (λ _, handles s) (opened p s).

(** The state in which the iteration that follows a refused attempt starts. *)
Definition next_round (path : string) (retry_delay : N) (max_tries tries : Z)
    (s : State) : State :=
  if tries + 1 <=? max_tries
  then final (time_sleep retry_delay (refused path s))
  else refused path s.

(** Traces laid end to end with [sep] between neighbours. *)
Fixpoint sep_join (sep : list Event) (ts : list (list Event)) : list Event :=
  match ts with
  | [] => []
  | [t] => t
  | t :: ts' => t ++ sep ++ sep_join sep ts'
  end.

Definition is_sleep (e : Event) : bool :=
  match e with EvSleep _ => true | _ => false end.

(** The paths an event names. *)
Definition names_only (p : string) (e : Event) : Prop :=
  match e with
  | EvOpen q _ | EvRemove q _ => q = p
  | _ => True
  end.

(** How a [with] block ends without raising. *)
Inductive Completion :=
| Normal
| Return (v : PyVal).

(** What the scope makes of the block's outcome and of the release's. *)
Definition after_release {R} (block_result : Res R) (release_result : Res unit)
    : Res R :=
  match release_result with
  | Val _ => block_result
  | Exc e => Exc e
  | Hang => Hang
  end.

(** Whether the release of a held lock reaches [os.remove] and finds the name
    gone. *)
Definition deletion_fails (s : State) (o : LockFileObj) (f : nat) : bool :=
  self_cleanup o
  && (negb (self_shared o) || upgrade_ok s f)
  && is_None (names s !! self_path o).

(** The sentence "release never fails to the caller, and the handle is always
    closed last", read on [LockFile_close]. *)
Definition release_never_fails : Prop :=
  ∀ s l o f, heap s !! l = Some o → self_f o = Some f →
    result (LockFile_close l s) = Val tt
    ∧ last (trace (LockFile_close l s)) = Some (EvClose f).


(** The sentence "the effective lock path is the configured path if one was
    given", read on [path or args[0]]. *)
Definition configured_path_wins : Prop :=
  ∀ p args s, path_or_first (VStr p) args s = (Val (VStr p), s, []).

(** A target that takes one tick and returns ["result"]. *)
Definition slow_target : Args → Kwargs → M PyVal :=
  λ _ _, time_sleep 1 ;;; ret (VStr "result").

(** *** States used in the examples *)

Definition s_empty : State := mkState ∅ ∅ ∅ ∅ 0%N [].

(** Another process holds the exclusive lock of ["P"] and releases it during
    the second pause. *)
Definition s_busy : State :=
  let s := final (LockFile_init "P.lock" false true s_empty) in
  mkState (names s) (files s) (handles s) (heap s) 0%N [[]; [ActRelease 0%nat]].

(** This process holds the exclusive lock of ["P"] as object [0]. *)
Definition s_held : State := final (LockFile_init "P.lock" false true s_empty).

(** The same, after some process has unlinked the lock-file. *)
Definition s_unlinked : State := final (os_remove "P.lock" s_held).


(** Two shared holders, objects [0] and [1]. *)
Definition s_two_shared : State :=
  final (LockFile_init "P.lock" true true
           (final (LockFile_init "P.lock" true true s_empty))).

(** * Properties *)

(** ** One system call at a time *)

Section Calls.

Implicit Types (s : State) (path : string) (shared cleanup : bool).

Lemma decode_lock_op shared : decode_op (lock_op shared) = Some (lock_mode shared).
Proof. by destruct shared. Qed.

Lemma lock_op_nb shared : Z.testbit (lock_op shared) 2 = true.
Proof. by destruct shared. Qed.

Lemma lock_mode_locked shared : Unlocked ≠ lock_mode shared.
Proof. by destruct shared. Qed.

Lemma new_fd_free s : handles s !! new_fd s = None.
Proof. unfold new_fd. apply not_elem_of_dom, is_fresh. Qed.

Lemma new_ino_free s : files s !! new_ino s = None.
Proof. unfold new_ino. apply not_elem_of_dom, is_fresh. Qed.

Lemma new_loc_free s : heap s !! new_loc s = None.
Proof. unfold new_loc. apply not_elem_of_dom, is_fresh. Qed.

Lemma os_open_append_run path s :
  os_open_append path s = (Val (new_fd s), opened path s, [EvOpen path (new_fd s)]).
Proof. unfold opened, os_open_append. by destruct (names s !! path). Qed.

Lemma opened_handles path s :
  handles (opened path s)
  = <[new_fd s := mkHandle (opened_ino path s) path Unlocked]> (handles s).
Proof.
  unfold opened, opened_ino, os_open_append.
  by destruct (names s !! path).
Qed.

Lemma opened_names path s :
  names (opened path s) = <[path := opened_ino path s]> (names s).
Proof.
  unfold opened, opened_ino, os_open_append.
  destruct (names s !! path) eqn:E; simpl; [|done].
  symmetry. by apply insert_id.
Qed.

Lemma opened_files path s :
  files (opened path s)
  = match names s !! path with
    | Some _ => files s
    | None => <[new_ino s := ""]> (files s)
    end.
Proof. unfold opened, os_open_append. by destruct (names s !! path). Qed.

Lemma opened_heap path s : heap (opened path s) = heap s.
Proof. unfold opened, os_open_append. by destruct (names s !! path). Qed.

(** A request on a handle that holds no lock yet. *)
Lemma flock_request fd shared s h :
  handles s !! fd = Some h → h_lock h = Unlocked →
  flock fd (lock_op shared) s =
  if contended s fd (h_ino h) (lock_mode shared)
  then (Exc (OSError EAGAIN), set_lock fd h Unlocked s,
        [EvFlock fd (lock_op shared) false])
  else (Val tt, set_lock fd h (lock_mode shared) s,
        [EvFlock fd (lock_op shared) true]).
Proof.
  intros Hfd Hl. unfold flock. rewrite Hfd, decode_lock_op, Hl, lock_op_nb.
  destruct (decide (Unlocked = lock_mode shared)) as [E|_]; [|done].
  by destruct (lock_mode_locked shared).
Qed.

(** The non-blocking exclusive request of [close], on any handle. *)
Lemma flock_exclusive_run fd s :
  flock fd _exclusive s =
  match handles s !! fd with
  | None => (Exc (OSError EBADF), s, [EvFlock fd _exclusive false])
  | Some h =>
      if decide (h_lock h = LockedEx) then (Val tt, s, [EvFlock fd _exclusive true])
      else if contended s fd (h_ino h) LockedEx
           then (Exc (OSError EAGAIN), set_lock fd h Unlocked s,
                 [EvFlock fd _exclusive false])
           else (Val tt, set_lock fd h LockedEx s, [EvFlock fd _exclusive true])
  end.
Proof. unfold flock. by destruct (handles s !! fd). Qed.

(** One attempt, in closed form: it is decided by whether the inode behind
    the name is locked in a conflicting mode through another handle. *)
Lemma LockFile_init_run path shared cleanup s :
  let fd := new_fd s in
  let s1 := opened path s in
  let h := mkHandle (opened_ino path s) path Unlocked in
  LockFile_init path shared cleanup s =
  if contended s1 fd (opened_ino path s) (lock_mode shared)
  then (Exc (LockError path), refused path s,
        [EvOpen path fd; EvFlock fd (lock_op shared) false; EvClose fd])
  else (Val (new_loc s),
        set_heap <[new_loc s := mkLockFile (Some fd) path shared cleanup]>
          (set_lock fd h (lock_mode shared) s1),
        [EvOpen path fd; EvFlock fd (lock_op shared) true]).
Proof.
  intros fd s1 h.
  assert (Hfd : handles s1 !! fd = Some h).
  { unfold s1. rewrite opened_handles. apply lookup_insert_eq. }
  pose proof (flock_request fd shared s1 h Hfd eq_refl) as Hfl.
  unfold LockFile_init, bind at 1. rewrite os_open_append_run.
  fold (lock_op shared) fd s1. cbv beta iota.
  unfold bind at 1. unfold try_except. rewrite Hfl. simpl h_ino.
  destruct (contended s1 fd (opened_ino path s) (lock_mode shared)) eqn:Hc.
  - cbn. f_equal. f_equal.
    unfold refused, set_handles, set_lock, set_handles. cbn. f_equal.
    unfold s1. rewrite opened_handles, insert_insert_eq, delete_insert_eq.
    apply delete_id, new_fd_free.
  - assert (Hl : new_loc (set_lock fd h (lock_mode shared) s1) = new_loc s).
    { unfold new_loc, set_lock, set_handles, s1. simpl. by rewrite opened_heap. }
    unfold bind, alloc. by rewrite Hl.
Qed.

End Calls.

(** ** Release *)

Section Release.

Implicit Types (s : State) (o : LockFileObj).

Lemma flock_exclusive_cases f s :
  flock f _exclusive s
  = (Val tt, after_upgrade f s, [EvFlock f _exclusive true])
    ∧ upgrade_ok s f = true
  ∨ (∃ errno, flock f _exclusive s
              = (Exc (OSError errno), after_upgrade f s,
                 [EvFlock f _exclusive false]))
    ∧ upgrade_ok s f = false.
Proof.
  unfold after_upgrade, upgrade_ok. rewrite flock_exclusive_run.
  destruct (handles s !! f) as [h|]; [|right; eauto].
  destruct (decide (h_lock h = LockedEx)) as [E|E].
  - left. by rewrite bool_decide_true.
  - rewrite bool_decide_false by done.
    destruct (contended s f (h_ino h) LockedEx); [right|left]; eauto.
Qed.

Lemma after_upgrade_names f s : names (after_upgrade f s) = names s.
Proof.
  unfold after_upgrade. rewrite flock_exclusive_run.
  destruct (handles s !! f) as [h|]; [|done].
  destruct (decide _); [done|]. by destruct (contended _ _ _ _).
Qed.

Lemma after_upgrade_heap f s : heap (after_upgrade f s) = heap s.
Proof.
  unfold after_upgrade. rewrite flock_exclusive_run.
  destruct (handles s !! f) as [h|]; [|done].
  destruct (decide _); [done|]. by destruct (contended _ _ _ _).
Qed.

(** A released lock, or a reference to nothing: [close] does nothing. *)
Lemma LockFile_close_released l s :
  (∀ o, heap s !! l = Some o → self_f o = None) →
  LockFile_close l s = (Val tt, s, []).
Proof.
  intros H. unfold LockFile_close, bind, load.
  destruct (heap s !! l) as [o|] eqn:E; [|done].
  by rewrite (H o eq_refl).
Qed.

(** A held lock: [close] in closed form. *)
Lemma LockFile_close_run l s o f :
  heap s !! l = Some o → self_f o = Some f →
  let p := self_path o in
  let s1 := if self_shared o then after_upgrade f s else s in
  let t1 := if self_shared o then [EvFlock f _exclusive (upgrade_ok s f)] else [] in
  LockFile_close l s =
  if self_cleanup o then
    if self_shared o && negb (upgrade_ok s f)
    then (Val tt, released l o f s1, t1 ++ [EvClose f])
    else match names s !! p with
         | Some _ => (Val tt, released l o f (set_names (delete p) s1),
                      t1 ++ [EvRemove p true; EvClose f])
         | None => (Exc (OSError ENOENT), s1, t1 ++ [EvRemove p false])
         end
  else (Val tt, released l o f s, [EvClose f]).
Proof.
  intros Hl Hf p s1 t1. unfold LockFile_close, bind at 1. unfold load.
  rewrite Hl, Hf. fold p. unfold released.
  destruct (self_cleanup o), (self_shared o); simpl andb; cbv iota.
  - unfold bind at 1. unfold try_except_else.
    subst s1 t1.
    destruct (flock_exclusive_cases f s) as [[-> ->]|[[errno ->] ->]];
      simpl negb; cbv iota beta.
    + unfold os_remove. rewrite after_upgrade_names.
      by destruct (names s !! p).
    + reflexivity.
  - subst s1 t1. unfold bind, os_remove. by destruct (names s !! p).
  - reflexivity.
  - reflexivity.
Qed.

Lemma after_upgrade_again f s :
  upgrade_ok s f = true →
  upgrade_ok (after_upgrade f s) f = true
  ∧ after_upgrade f (after_upgrade f s) = after_upgrade f s.
Proof.
  unfold upgrade_ok, after_upgrade. rewrite flock_exclusive_run.
  destruct (handles s !! f) as [h|] eqn:Hh; [|done].
  destruct (decide (h_lock h = LockedEx)) as [E|E].
  - intros _. unfold final. cbn [fst snd].
    rewrite Hh, flock_exclusive_run, Hh.
    rewrite bool_decide_true by done. by rewrite decide_True.
  - rewrite bool_decide_false by done.
    destruct (contended s f (h_ino h) LockedEx); [done|]. intros _.
    unfold final. cbn [fst snd]. rewrite flock_exclusive_run.
    unfold set_lock, set_handles. cbn [handles]. rewrite lookup_insert_eq.
    cbn [h_lock]. rewrite bool_decide_true by done. by rewrite decide_True.
Qed.

Lemma after_upgrade_dom f s :
  upgrade_ok s f = true → dom (handles (after_upgrade f s)) = dom (handles s).
Proof.
  unfold upgrade_ok, after_upgrade. rewrite flock_exclusive_run.
  destruct (handles s !! f) as [h|] eqn:Hh; [|done].
  destruct (decide (h_lock h = LockedEx)) as [E|E]; [done|].
  rewrite bool_decide_false by done.
  destruct (contended s f (h_ino h) LockedEx); [done|]. intros _.
  unfold final, set_lock, set_handles. cbn [fst snd handles].
  rewrite dom_insert_L. apply (elem_of_dom_2 (D:=gset nat)) in Hh.
  apply leibniz_equiv. apply subseteq_union_1, singleton_subseteq_l, Hh.
Qed.

End Release.

(** ** The claims on [LockFile.close] *)

(** C1, refuted as stated. An exclusive lock is held on ["P.lock"] and the
    name has been unlinked meanwhile: [close] raises [OSError] at
    [os.remove], before it reaches [self._f.close()], so the handle stays
    open and the object stays unreleased. *)
Lemma C1_release_fails_when_unlinked :
  heap s_unlinked !! 0%nat = Some (mkLockFile (Some 0%nat) "P.lock" false true)
  ∧ LockFile_close 0%nat s_unlinked
    = (Exc (OSError ENOENT), s_unlinked, [EvRemove "P.lock" false])
  ∧ is_Some (handles s_unlinked !! 0%nat)
  ∧ ¬ release_never_fails.
Proof.
  assert (Hh : heap s_unlinked !! 0%nat
               = Some (mkLockFile (Some 0%nat) "P.lock" false true))
    by (vm_compute; reflexivity).
  assert (Hr : LockFile_close 0%nat s_unlinked
               = (Exc (OSError ENOENT), s_unlinked, [EvRemove "P.lock" false]))
    by (vm_compute; reflexivity).
  split; [exact Hh|]. split; [exact Hr|].
  split; [eexists; vm_compute; reflexivity|].
  intros H. destruct (H _ _ _ _ Hh eq_refl) as [Hres _].
  rewrite Hr in Hres. discriminate Hres.
Qed.

(** C1, amended. On a held lock [close] has two outcomes. When a deletion is
    attempted and the name is gone, [OSError] reaches the caller: the failed
    [os.remove] is the last system call, the handle is not closed and the
    object is left as it was. In every other case (no cleanup, a refused
    upgrade of a shared lock, which is suppressed, or a deletion that
    succeeds) the call returns normally, closing the handle is its last system
    call, and the object is marked released. *)
Theorem C1_release_outcome l s o f :
  heap s !! l = Some o → self_f o = Some f →
  let r := LockFile_close l s in
  if deletion_fails s o f
  then result r = Exc (OSError ENOENT)
       ∧ last (trace r) = Some (EvRemove (self_path o) false)
       ∧ (EvClose f ∉ trace r)
       ∧ dom (handles (final r)) = dom (handles s)
       ∧ heap (final r) = heap s
  else result r = Val tt
       ∧ last (trace r) = Some (EvClose f)
       ∧ handles (final r) !! f = None
       ∧ heap (final r) !! l
         = Some (mkLockFile None (self_path o) (self_shared o) (self_cleanup o)).
Proof.
  intros Hl Hf r. subst r. rewrite (LockFile_close_run l s o f Hl Hf).
  unfold deletion_fails.
  assert (Hrel : ∀ s', handles (released l o f s') !! f = None
                   ∧ heap (released l o f s') !! l
                     = Some (mkLockFile None (self_path o) (self_shared o)
                                        (self_cleanup o))).
  { intros s'. unfold released, set_heap, set_handles. cbn [handles heap].
    split; [apply lookup_delete_eq | apply lookup_insert_eq]. }
  destruct (self_cleanup o); cbn [andb];
    [|unfold result, final, trace; cbn [fst snd];
      destruct (Hrel s); by repeat split].
  destruct (self_shared o) eqn:Hs; cbn [andb orb negb].
  - destruct (upgrade_ok s f) eqn:Hu; cbn [andb negb].
    + destruct (names s !! self_path o) eqn:Hn; cbn [is_None];
        unfold result, final, trace; cbn [fst snd].
      * destruct (Hrel (set_names (delete (self_path o)) (after_upgrade f s))).
        by repeat split.
      * repeat split.
        -- intros Hin. apply list_elem_of_In in Hin. cbn in Hin.
           destruct Hin as [?|[?|[]]]; discriminate.
        -- by apply after_upgrade_dom.
        -- apply after_upgrade_heap.
    + unfold result, final, trace; cbn [fst snd].
      destruct (Hrel (after_upgrade f s)). by repeat split.
  - destruct (names s !! self_path o) eqn:Hn; cbn [is_None];
      unfold result, final, trace; cbn [fst snd].
    + destruct (Hrel (set_names (delete (self_path o)) s)). by repeat split.
    + repeat split. intros Hin. apply list_elem_of_In in Hin. cbn in Hin.
      destruct Hin as [?|[]]; discriminate.
Qed.

Lemma C1_release_outcome_witness :
  result (LockFile_close 0%nat s_held) = Val tt
  ∧ last (trace (LockFile_close 0%nat s_held)) = Some (EvClose 0%nat)
  ∧ handles (final (LockFile_close 0%nat s_held)) !! 0%nat = None
  ∧ heap (final (LockFile_close 0%nat s_held)) !! 0%nat
    = Some (mkLockFile None "P.lock" false true).
Proof.
  exact (C1_release_outcome 0%nat s_held
           (mkLockFile (Some 0%nat) "P.lock" false true) 0%nat
           eq_refl eq_refl).
Defined.

(** C4. Release of a held lock with [cleanup] set. A shared lock first asks
    for the exclusive lock on its own handle, with [LOCK_NB]; when that is
    granted [os.remove] on the lock-file follows and closing comes after it,
    and when it is refused no deletion is issued, the name space is untouched
    and the handle is closed. An exclusive lock issues [os.remove] first,
    whatever the state, and closes after it. Wherever the deletion is issued
    the lock-file name is gone from the name space afterwards. *)
Theorem C4_release_cleanup l s o f :
  heap s !! l = Some o → self_f o = Some f → self_cleanup o = true →
  let p := self_path o in
  let r := LockFile_close l s in
  (decode_op _exclusive = Some LockedEx ∧ Z.testbit _exclusive 2 = true)
  ∧ if self_shared o
    then if upgrade_ok s f
         then ∃ ok, trace r = [EvFlock f _exclusive true; EvRemove p ok]
                              ++ (if ok then [EvClose f] else [])
                    ∧ names (final r) = delete p (names s)
                    ∧ names (final r) !! p = None
         else trace r = [EvFlock f _exclusive false; EvClose f]
              ∧ names (final r) = names s
    else ∃ ok, trace r = EvRemove p ok :: (if ok then [EvClose f] else [])
               ∧ names (final r) = delete p (names s)
               ∧ names (final r) !! p = None.
Proof.
  intros Hl Hf Hc p r. split; [done|].
  subst r. rewrite (LockFile_close_run l s o f Hl Hf).
  rewrite Hc. fold p.
  destruct (self_shared o); cbn [andb].
  - destruct (upgrade_ok s f); cbn [negb].
    + destruct (names s !! p) eqn:Hn; unfold trace, final; cbn [fst snd].
      * exists true. split; [done|].
        unfold released, set_heap, set_handles, set_names. cbn [names].
        rewrite after_upgrade_names. split; [done|]. apply lookup_delete_eq.
      * exists false. split; [done|]. rewrite after_upgrade_names.
        split; [|done]. symmetry. by apply delete_id.
    + unfold trace, final; cbn [fst snd]. split; [done|].
      unfold released, set_heap, set_handles. cbn [names].
      apply after_upgrade_names.
  - destruct (names s !! p) eqn:Hn; unfold trace, final; cbn [fst snd].
    + exists true. split; [done|]. split; [done|]. apply lookup_delete_eq.
    + exists false. split; [done|]. split; [|done]. symmetry. by apply delete_id.
Qed.

Lemma C4_release_cleanup_witness :
  trace (LockFile_close 0%nat s_two_shared)
  = [EvFlock 0%nat _exclusive false; EvClose 0%nat]
  ∧ names (final (LockFile_close 0%nat s_two_shared)) = names s_two_shared.
Proof.
  exact (proj2 (C4_release_cleanup 0%nat s_two_shared
                  (mkLockFile (Some 0%nat) "P.lock" true true) 0%nat
                  eq_refl eq_refl eq_refl)).
Defined.

(** The last of the shared holders does delete the lock-file. *)
Example last_shared_holder_deletes :
  let s := final (LockFile_close 0%nat s_two_shared) in
  trace (LockFile_close 1%nat s)
  = [EvFlock 1%nat _exclusive true; EvRemove "P.lock" true; EvClose 1%nat]
  ∧ names (final (LockFile_close 1%nat s)) = ∅.
Proof. by vm_compute. Qed.

(** C9. [close] on a released lock does nothing: no system call, no change of
    state. Hence, from any state, a second [close] right after the first
    leaves the state (file handles, name space, file contents, objects) as the
    first left it and ends the way the first did; when the first returned, the
    second makes no system call at all. *)
Theorem C9_close_idempotent l s :
  let once := LockFile_close l s in
  let twice := LockFile_close l (final once) in
  (∀ o, heap s !! l = Some o → self_f o = None → once = (Val tt, s, []))
  ∧ final twice = final once
  ∧ result twice = result once
  ∧ (result once = Val tt → trace twice = []).
Proof.
  intros once twice. split.
  { intros o Ho Hf. apply LockFile_close_released. intros o' Ho'. congruence. }
  assert (Hnoop : ∀ s', (∀ o, heap s' !! l = Some o → self_f o = None) →
            once = (Val tt, s', trace once) →
            final twice = final once ∧ result twice = result once
            ∧ (result once = Val tt → trace twice = [])).
  { intros s' Hrel Hon. subst twice. rewrite Hon. unfold final, result, trace.
    cbn [fst snd]. rewrite (LockFile_close_released l s' Hrel).
    by repeat split. }
  destruct (heap s !! l) as [o|] eqn:Hl.
  2:{ apply (Hnoop s); [intros o; by rewrite Hl|].
      subst once. rewrite LockFile_close_released; [done|]. intros o. by rewrite Hl. }
  destruct (self_f o) as [f|] eqn:Hf.
  2:{ apply (Hnoop s); [intros o'; congruence|].
      subst once. rewrite LockFile_close_released; [done|]. intros o'. congruence. }
  assert (Hrel : ∀ s' o', heap (released l o f s') !! l = Some o' → self_f o' = None).
  { intros s' o'. unfold released, set_heap. cbn [heap].
    rewrite lookup_insert_eq. by intros [= <-]. }
  pose proof (LockFile_close_run l s o f Hl Hf) as Hrun. cbv zeta in Hrun.
  fold once in Hrun.
  destruct (self_cleanup o) eqn:Hc.
  2:{ apply (Hnoop _ (Hrel s)). by rewrite Hrun. }
  destruct (self_shared o) eqn:Hs; cbn [andb] in Hrun.
  - destruct (upgrade_ok s f) eqn:Hu; cbn [negb] in Hrun.
    2:{ apply (Hnoop _ (Hrel (after_upgrade f s))). by rewrite Hrun. }
    destruct (names s !! self_path o) eqn:Hn.
    { apply (Hnoop _ (Hrel (set_names (delete (self_path o)) (after_upgrade f s)))).
      by rewrite Hrun. }
    destruct (after_upgrade_again f s Hu) as [Hu' Hst].
    subst twice. rewrite Hrun. unfold final, result, trace. cbn [fst snd].
    rewrite (LockFile_close_run l (after_upgrade f s) o f);
      [|by rewrite after_upgrade_heap|done].
    rewrite Hc, Hs, Hu', Hst, after_upgrade_names, Hn. cbn [andb negb fst snd].
    by repeat split.
  - destruct (names s !! self_path o) eqn:Hn.
    { apply (Hnoop _ (Hrel (set_names (delete (self_path o)) s))). by rewrite Hrun. }
    subst twice. rewrite Hrun. unfold final, result, trace. cbn [fst snd].
    rewrite (LockFile_close_run l s o f Hl Hf).
    rewrite Hc, Hs, Hn. cbn [andb negb fst snd]. by repeat split.
Qed.

Lemma C9_close_idempotent_witness :
  final (LockFile_close 0%nat (final (LockFile_close 0%nat s_held)))
  = final (LockFile_close 0%nat s_held)
  ∧ trace (LockFile_close 0%nat (final (LockFile_close 0%nat s_held))) = [].
Proof.
  destruct (C9_close_idempotent 0%nat s_held) as (_ & Hst & _ & Htr).
  split; [exact Hst | exact (Htr eq_refl)].
Defined.

(** ** The retry loop *)

Section Loop.

Variables (path : string) (shared : bool) (retry_delay : N) (max_tries : Z).

Implicit Types (s : State) (tries : Z) (fuel : nat).

Local Abbreviation loop fuel := (lockfile_loop fuel path shared retry_delay max_tries).
Local Abbreviation next_round := (next_round path retry_delay max_tries).

Lemma sep_join_cons sep t (ts : list (list Event)) last :
  sep_join sep (t :: ts ++ [last]) = t ++ sep ++ sep_join sep (ts ++ [last]).
Proof. by destruct ts. Qed.

Lemma loop_exit fuel tries lock s :
  is_None lock && (tries <=? max_tries) = false →
  loop fuel tries lock s = (Val lock, s, []).
Proof. intros H. destruct fuel; simpl; by rewrite H. Qed.

(** One iteration, in closed form. *)
Lemma loop_step fuel tries s :
  (tries <=? max_tries) = true →
  loop (S fuel) tries None s =
  if contended (opened path s) (new_fd s) (opened_ino path s) (lock_mode shared)
  then let '(r, s', t) := loop fuel (tries + 1) None (next_round tries s) in
       (r, s',
        [EvOpen path (new_fd s); EvFlock (new_fd s) (lock_op shared) false;
         EvClose (new_fd s)]
        ++ (if tries + 1 <=? max_tries then [EvSleep retry_delay] else []) ++ t)
  else (Val (Some (new_loc s)),
        set_heap <[new_loc s := mkLockFile (Some (new_fd s)) path shared true]>
          (set_lock (new_fd s) (mkHandle (opened_ino path s) path Unlocked)
                    (lock_mode shared) (opened path s)),
        [EvOpen path (new_fd s); EvFlock (new_fd s) (lock_op shared) true]).
Proof.
  intros Hle. cbn [lockfile_loop is_None andb]. rewrite Hle.
  unfold bind at 1. unfold try_except, bind at 1.
  rewrite LockFile_init_run. cbv zeta.
  destruct (contended _ _ _ _).
  - cbn [is_LockError]. unfold next_round.
    destruct (tries + 1 <=? max_tries) eqn:Hnext.
    + unfold bind at 1. unfold time_sleep at 1, ret. cbn [fst snd].
      unfold final, time_sleep. cbn [fst snd].
      destruct (loop fuel (tries + 1) None _) as [[r s'] t].
      by rewrite <- !app_assoc.
    + unfold bind at 1, ret. cbn [fst snd].
      destruct (loop fuel (tries + 1) None _) as [[r s'] t].
      by rewrite <- !app_assoc.
  - unfold ret. cbn [fst snd].
    rewrite loop_exit by done. by rewrite !app_nil_r.
Qed.

(** With fuel for every attempt still allowed, the loop ends: it yields a
    lock after a run of refused attempts ended by a granted one, or [None]
    after all the attempts allowed were refused; pauses separate the
    attempts. *)
Lemma loop_run fuel : ∀ tries s,
  tries ≤ max_tries → max_tries - tries < Z.of_nat fuel →
  ∃ fails last lock s',
    loop fuel tries None s
    = (Val lock, s', sep_join [EvSleep retry_delay] (fails ++ [last]))
    ∧ Forall (attempt_failed path shared) fails
    ∧ Z.of_nat (length fails) ≤ max_tries - tries
    ∧ match lock with
      | Some l => attempt_ok path shared last ∧ holds s' l path shared
      | None => attempt_failed path shared last
                ∧ Z.of_nat (length fails) = max_tries - tries
      end.
Proof.
  induction fuel as [|fuel IH]; intros tries s Hle Hfuel; [lia|].
  rewrite loop_step by lia.
  destruct (contended _ _ _ _) eqn:Hc.
  - destruct (tries + 1 <=? max_tries) eqn:Hnext.
    + destruct (IH (tries + 1) (next_round tries s))
        as (fails & last & lock & s' & -> & Hf & Hlen & Hlock); [lia..|].
      exists ([EvOpen path (new_fd s);
               EvFlock (new_fd s) (lock_op shared) false;
               EvClose (new_fd s)] :: fails), last, lock, s'.
      split; [f_equal; exact (eq_sym (sep_join_cons _ _ fails last))|].
      split; [constructor; [by eexists|done]|].
      split; [cbn [length]; lia|].
      destruct lock; [done|]. split; [apply Hlock|].
      cbn [length]. destruct Hlock. lia.
    + rewrite loop_exit by (cbn [is_None andb]; done).
      eexists [], _, None, (next_round tries s).
      split; [by rewrite !app_nil_r|].
      split; [constructor|]. split; [cbn; lia|].
      split; [by eexists|]. cbn. lia.
  - eexists [], _, (Some (new_loc s)), _.
    split; [reflexivity|]. split; [constructor|]. split; [cbn; lia|].
    split; [by eexists|].
    exists (new_fd s), (mkHandle (opened_ino path s) path (lock_mode shared)).
    unfold set_heap, set_lock, set_handles. cbn [heap handles names h_name h_lock h_ino].
    split; [apply lookup_insert_eq|]. split; [apply lookup_insert_eq|].
    split; [done|]. split; [done|].
    rewrite opened_names. apply lookup_insert_eq.
Qed.

End Loop.

Lemma bind_ret_l {A B} (a : A) (k : A → M B) s : bind (ret a) k s = k a s.
Proof. unfold bind, ret. by destruct (k a s) as [[r s2] t2]. Qed.

Lemma lockfile_acquire_str path max_retries retry_delay shared s :
  lockfile_acquire (VStr path) max_retries retry_delay shared s
  = lockfile_loop (Z.to_nat (1 + max_retries)) (path +:+ ".lock") shared
                  retry_delay (1 + max_retries) 1 None s.
Proof.
  unfold lockfile_acquire, add_lock_suffix.
  exact (bind_ret_l (path +:+ ".lock")
           (λ p, lockfile_loop _ p shared retry_delay _ 1 None) s).
Qed.

Lemma attempt_no_sleep p shared t :
  attempt_failed p shared t ∨ attempt_ok p shared t → List.filter is_sleep t = [].
Proof. by intros [[fd ->]|[fd ->]]. Qed.

Lemma sleeps_sep_join d (fails : list (list Event)) last :
  Forall (λ t, List.filter is_sleep t = []) fails →
  List.filter is_sleep last = [] →
  List.filter is_sleep (sep_join [EvSleep d] (fails ++ [last]))
  = replicate (length fails) (EvSleep d).
Proof.
  intros Hf Hl. induction Hf as [|t fails Ht Hf IH]; [done|].
  rewrite <- app_comm_cons, sep_join_cons, !List.filter_app, Ht, IH.
  reflexivity.
Qed.

Lemma acquire_returns path max_retries retry_delay shared s :
  0 ≤ max_retries →
  ∃ lock s' t,
    lockfile_acquire (VStr path) max_retries retry_delay shared s
    = (Val lock, s', t).
Proof.
  intros Hmr. rewrite lockfile_acquire_str.
  destruct (loop_run (path +:+ ".lock") shared retry_delay (1 + max_retries)
              (Z.to_nat (1 + max_retries)) 1 s)
    as (fails & last & lock & s' & Hrun & _); [lia..|]. eauto.
Qed.



(** The lock of ["P"] is busy and is let go during the second pause: two
    refused attempts, two pauses, then the lock. *)
Example retry_until_released :
  let r := lockfile_acquire (VStr "P") 3 5 false s_busy in
  result r = Val (Some 1%nat)
  ∧ trace r
    = [EvOpen "P.lock" 1%nat; EvFlock 1%nat _exclusive false; EvClose 1%nat;
       EvSleep 5;
       EvOpen "P.lock" 1%nat; EvFlock 1%nat _exclusive false; EvClose 1%nat;
       EvSleep 5;
       EvOpen "P.lock" 0%nat; EvFlock 0%nat _exclusive true].
Proof. by vm_compute. Qed.

(** No retry allotted and the lock busy: one attempt, [None], no pause. *)
Example no_retry_no_sleep :
  let r := lockfile_acquire (VStr "P") 0 5 false s_busy in
  result r = Val None
  ∧ trace r
    = [EvOpen "P.lock" 1%nat; EvFlock 1%nat _exclusive false; EvClose 1%nat]
  ∧ clock (final r) = clock s_busy.
Proof. by vm_compute. Qed.

Lemma lockfile_acquire_total path max_retries retry_delay shared s :
  ∃ lock s' t,
    lockfile_acquire (VStr path) max_retries retry_delay shared s
    = (Val lock, s', t).
Proof.
  destruct (Z.le_gt_cases 0 max_retries) as [Hmr|Hmr].
  - destruct (acquire_returns path max_retries retry_delay shared s Hmr)
      as (lock & s' & t & H). eauto.
  - rewrite lockfile_acquire_str, loop_exit; [eauto|].
    cbn [is_None andb]. lia.
Qed.

(** ** The scope of [lockfile] *)

Section Scope.

Context {R : Type}.
Variables (path : PyVal) (max_retries : Z) (retry_delay : N) (shared : bool)
          (error : PyVal) (block : option nat → M R).

(** The generator from its [try] on, once the loop has yielded [lock]. *)
Lemma lockfile_run s lock s1 t1 :
  lockfile_acquire path max_retries retry_delay shared s = (Val lock, s1, t1) →
  lockfile path max_retries retry_delay shared error block s
  = let '(r, s3, t) :=
      try_finally
        (if truthy error && is_None lock then py_raise error else block lock)
        (match lock with Some l => LockFile_close l | None => ret tt end) s1 in
    (r, s3, t1 ++ t).
Proof. intros H. unfold lockfile, bind. by rewrite H. Qed.

Lemma lockfile_held s l s1 t1 r2 s2 t2 :
  lockfile_acquire path max_retries retry_delay shared s = (Val (Some l), s1, t1) →
  block (Some l) s1 = (r2, s2, t2) → r2 ≠ Hang →
  lockfile path max_retries retry_delay shared error block s
  = (after_release r2 (result (LockFile_close l s2)),
     final (LockFile_close l s2),
     t1 ++ t2 ++ trace (LockFile_close l s2)).
Proof.
  intros Hacq Hblock Hr. rewrite (lockfile_run s _ _ _ Hacq).
  rewrite andb_false_r. unfold try_finally. rewrite Hblock.
  unfold result, final, trace.
  destruct (LockFile_close l s2) as [[r3 s3] t3]. cbn [fst snd].
  destruct r2; [| |done]; by destruct r3.
Qed.

Lemma lockfile_unavailable s s1 t1 :
  lockfile_acquire path max_retries retry_delay shared s = (Val None, s1, t1) →
  lockfile path max_retries retry_delay shared error block s
  = let '(r2, s2, t2) := (if truthy error then py_raise error else block None) s1 in
    (r2, s2, t1 ++ t2).
Proof.
  intros Hacq. rewrite (lockfile_run s _ _ _ Hacq).
  rewrite andb_true_r. unfold try_finally, ret.
  destruct ((if truthy error then py_raise error else block None) s1)
    as [[r2 s2] t2].
  destruct r2; by rewrite ?app_nil_r.
Qed.

End Scope.

(** C2. Take any run of [with lockfile(...) as lock: block] whose loop has
    ended. If a lock was obtained and the block comes to an end, by falling
    off its end, by a [return] or by an exception, then what follows the block
    is one call of [close] on that lock, from the state in which the block
    ended, and nothing else: the scope's system calls are the loop's, the
    block's and those of that single call, the final state is the one that
    call leaves, and the block's outcome stands unless that call raises. If no
    lock was obtained the scope ends where the block (or [raise error]) ends,
    and no release takes place. *)
Theorem C2_release_exactly_once {R} path max_retries retry_delay shared error
    (block : option nat → M R) s lock s1 t1 :
  lockfile_acquire path max_retries retry_delay shared s = (Val lock, s1, t1) →
  match lock with
  | Some l =>
      ∀ r2 s2 t2, block (Some l) s1 = (r2, s2, t2) → r2 ≠ Hang →
        lockfile path max_retries retry_delay shared error block s
        = (after_release r2 (result (LockFile_close l s2)),
           final (LockFile_close l s2),
           t1 ++ t2 ++ trace (LockFile_close l s2))
  | None =>
      ∀ r2 s2 t2,
        (if truthy error then py_raise error else block None) s1 = (r2, s2, t2) →
        lockfile path max_retries retry_delay shared error block s
        = (r2, s2, t1 ++ t2)
  end.
Proof.
  intros Hacq. destruct lock as [l|].
  - intros r2 s2 t2. by apply lockfile_held.
  - intros r2 s2 t2 Hb.
    rewrite (lockfile_unavailable _ _ _ _ _ _ _ _ _ Hacq). by rewrite Hb.
Qed.

(** The three ways out of the block, on a free lock: each run ends with the
    same single release. *)
Example release_on_every_exit :
  let scope (exit : M Completion) :=
    lockfile (VStr "P") 0 1 false VNone (λ _, exit) s_empty in
  let released := [EvRemove "P.lock" true; EvClose 0%nat] in
  let acquired := [EvOpen "P.lock" 0%nat; EvFlock 0%nat _exclusive true] in
  (result (scope (ret Normal)) = Val Normal
   ∧ trace (scope (ret Normal)) = acquired ++ released)
  ∧ (result (scope (ret (Return (VInt 1)))) = Val (Return (VInt 1))
     ∧ trace (scope (ret (Return (VInt 1)))) = acquired ++ released)
  ∧ (result (scope (raise (Raised (VExc "ValueError"))))
     = Exc (Raised (VExc "ValueError"))
     ∧ trace (scope (raise (Raised (VExc "ValueError")))) = acquired ++ released).
Proof. by vm_compute. Qed.

Lemma C2_release_exactly_once_witness :
  lockfile (VStr "P") 0 1 false VNone
    (λ _, raise (Raised (VExc "ValueError")) : M Completion) s_empty
  = (after_release (Exc (Raised (VExc "ValueError")))
       (result (LockFile_close 0%nat s_held)),
     final (LockFile_close 0%nat s_held),
     [EvOpen "P.lock" 0%nat; EvFlock 0%nat _exclusive true] ++ []
     ++ trace (LockFile_close 0%nat s_held)).
Proof.
  apply (C2_release_exactly_once (VStr "P") 0 1 false VNone
           (λ _, raise (Raised (VExc "ValueError")) : M Completion)
           s_empty (Some 0%nat) s_held
           [EvOpen "P.lock" 0%nat; EvFlock 0%nat _exclusive true]).
  - vm_compute. reflexivity.
  - reflexivity.
  - discriminate.
Defined.

(** C10. When no lock could be obtained, a falsy [error] ([None], [False],
    [0], the empty string) is not raised: the block runs with [None], and the
    scope ends as the block does. A truthy [error] goes to [raise] and the
    block does not run. *)
Theorem C10_falsy_error {R} path max_retries retry_delay shared error
    (block : option nat → M R) s s1 t1 :
  lockfile_acquire path max_retries retry_delay shared s = (Val None, s1, t1) →
  (truthy error = false →
     lockfile path max_retries retry_delay shared error block s
     = let '(r2, s2, t2) := block None s1 in (r2, s2, t1 ++ t2))
  ∧ (truthy error = true →
     lockfile path max_retries retry_delay shared error block s
     = (Exc (if is_exception error then Raised error else TypeError), s1, t1))
  ∧ truthy VNone = false ∧ truthy (VBool false) = false
  ∧ truthy (VInt 0) = false ∧ truthy (VStr "") = false.
Proof.
  intros Hacq.
  pose proof (lockfile_unavailable path max_retries retry_delay shared error
                block s s1 t1 Hacq) as Hrun.
  split; [|split; [|done]]; intros Ht; rewrite Ht in Hrun; rewrite Hrun.
  - reflexivity.
  - unfold py_raise, raise. destruct (is_exception error); by rewrite app_nil_r.
Qed.

Lemma C10_falsy_error_witness :
  lockfile (VStr "P") 0 1 false (VInt 0) (λ lock, ret lock) s_busy
  = (Val None, s_busy,
     [EvOpen "P.lock" 1%nat; EvFlock 1%nat _exclusive false; EvClose 1%nat]
     ++ []).
Proof.
  refine (proj1 (C10_falsy_error (VStr "P") 0 1 false (VInt 0)
                   (λ lock, ret lock) s_busy s_busy
                   [EvOpen "P.lock" 1%nat; EvFlock 1%nat _exclusive false;
                    EvClose 1%nat] _) _).
  - vm_compute. reflexivity.
  - reflexivity.
Defined.




(** ** The decorator *)




(** The two scenarios of the test suite, on the model: held elsewhere, the
    wrapper returns the marker; once released, it returns the result. *)
Example wrapper_marker_then_result :
  let wrapped := lockfunc (VStr "P") 0 1 false VNone VNone
                   (λ _ _, ret (VStr "In my function")) in
  result (wrapped [] [] s_held) = Val VNone
  ∧ result (wrapped [] [] (final (LockFile_close 0%nat s_held)))
    = Val (VStr "In my function").
Proof. by vm_compute. Qed.

(** C8, refuted as stated. The empty string is falsy: configured as [path], it
    loses to the first positional argument, and the lock is taken on that
    argument's lock-file. *)
Lemma C8_empty_path_is_ignored :
  path_or_first (VStr "") [VStr "x"] s_empty = (Val (VStr "x"), s_empty, [])
  ∧ trace (lockfunc (VStr "") 0 1 false VNone VNone
             (λ _ _, ret (VStr "result")) [VStr "x"] [] s_empty)
    = [EvOpen "x.lock" 0%nat; EvFlock 0%nat _exclusive true;
       EvRemove "x.lock" true; EvClose 0%nat]
  ∧ ¬ configured_path_wins.
Proof.
  split; [reflexivity|]. split; [vm_compute; reflexivity|].
  intros H. specialize (H "" [VStr "x"] s_empty). discriminate H.
Qed.

(** C8, amended. The lock path of a call is the configured [path] when that
    value is truthy (for a string: not empty), and the first positional
    argument otherwise; the wrapper then behaves as [lockfile] on that path.
    With a falsy [path] and no positional argument the call raises
    [IndexError] before any system call, and neither the target nor the
    marker comes into play. *)
Theorem C8_effective_path path max_retries retry_delay shared marker error
    (func : Args → Kwargs → M PyVal) args kwargs s :
  let call := lockfunc path max_retries retry_delay shared marker error func
                args kwargs s in
  let scope eff :=
    lockfile eff max_retries retry_delay shared error
      (λ lock, if is_None lock then ret marker else func args kwargs) s in
  (truthy path = true →
     path_or_first path args s = (Val path, s, []) ∧ call = scope path)
  ∧ (truthy path = false →
     match args with
     | a :: _ => path_or_first path args s = (Val a, s, []) ∧ call = scope a
     | [] => path_or_first path args s = (Exc IndexError, s, [])
             ∧ call = (Exc IndexError, s, [])
     end).
Proof.
  intros call scope. subst call scope. unfold lockfunc, path_or_first.
  pose (k := λ eff, lockfile eff max_retries retry_delay shared error
                (λ lock, if is_None lock then ret marker else func args kwargs)).
  split; intros Ht; rewrite Ht.
  - split; [done|]. exact (bind_ret_l path k s).
  - destruct args as [|a rest]; [done|]. split; [done|].
    exact (bind_ret_l a k s).
Qed.

Lemma C8_effective_path_witness :
  path_or_first (VStr "P") [VStr "x"] s_empty = (Val (VStr "P"), s_empty, [])
  ∧ lockfunc (VStr "P") 0 1 false VNone VNone slow_target [VStr "x"] [] s_empty
    = lockfile (VStr "P") 0 1 false VNone
        (λ lock, if is_None lock then ret VNone else slow_target [VStr "x"] [])
        s_empty.
Proof.
  exact (proj1 (C8_effective_path (VStr "P") 0 1 false VNone VNone slow_target
                  [VStr "x"] [] s_empty) eq_refl).
Defined.

(** ** The lock-file *)

Section Files.

Implicit Types (s : State) (p : string).

Lemma opened_files_mono p s : files s ⊆ files (opened p s).
Proof.
  rewrite opened_files. destruct (names s !! p); [done|].
  apply insert_subseteq, new_ino_free.
Qed.

Lemma init_names_files p shared cleanup s :
  names (final (LockFile_init p shared cleanup s)) = names (opened p s)
  ∧ files (final (LockFile_init p shared cleanup s)) = files (opened p s).
Proof.
  rewrite LockFile_init_run. cbv zeta. by destruct (contended _ _ _ _).
Qed.

Lemma after_upgrade_files f s : files (after_upgrade f s) = files s.
Proof.
  unfold after_upgrade. rewrite flock_exclusive_run.
  destruct (handles s !! f) as [h|]; [|done].
  destruct (decide _); [done|]. by destruct (contended _ _ _ _).
Qed.

Lemma close_files l s : files (final (LockFile_close l s)) = files s.
Proof.
  destruct (heap s !! l) as [o|] eqn:Hl.
  2:{ rewrite LockFile_close_released; [done|]. intros o. by rewrite Hl. }
  destruct (self_f o) as [f|] eqn:Hf.
  2:{ rewrite LockFile_close_released; [done|]. intros o'. congruence. }
  rewrite (LockFile_close_run l s o f Hl Hf).
  destruct (self_cleanup o); [|done].
  destruct (self_shared o); cbn [andb];
    [destruct (upgrade_ok s f); cbn [negb]|];
    try destruct (names s !! self_path o);
    unfold final, released, set_heap, set_handles, set_names;
    cbn [fst snd files]; by rewrite ?after_upgrade_files.
Qed.

Lemma run_action_files s a : files s ⊆ files (run_action s a).
Proof.
  destruct a as [p sh|l|p]; cbn [run_action].
  - fold (final (LockFile_init p sh true s)).
    rewrite (proj2 (init_names_files p sh true s)). apply opened_files_mono.
  - fold (final (LockFile_close l s)). by rewrite close_files.
  - unfold os_remove. by destruct (names s !! p).
Qed.

Lemma run_actions_files acts : ∀ s, files s ⊆ files (foldl run_action s acts).
Proof.
  induction acts as [|a acts IH]; intros s; [done|]. cbn [foldl].
  etrans; [apply run_action_files|apply IH].
Qed.

Lemma next_round_files p d max_tries tries s :
  files s ⊆ files (next_round p d max_tries tries s).
Proof.
  unfold next_round.
  assert (H : files s ⊆ files (refused p s)) by apply opened_files_mono.
  destruct (tries + 1 <=? max_tries); [|done].
  etrans; [exact H|]. unfold final, time_sleep. cbn [fst snd].
  etrans; [|apply run_actions_files]. done.
Qed.

(** Whatever the loop and the other processes do, a file that exists keeps
    its text. *)
Lemma loop_files p shared d max_tries fuel : ∀ tries s,
  files s ⊆ files (final (lockfile_loop fuel p shared d max_tries tries None s)).
Proof.
  induction fuel as [|fuel IH]; intros tries s.
  - cbn [lockfile_loop is_None andb]. by destruct (tries <=? max_tries).
  - destruct (tries <=? max_tries) eqn:Hle; [|by rewrite loop_exit].
    rewrite loop_step by done.
    destruct (contended _ _ _ _).
    + specialize (IH (tries + 1) (next_round p d max_tries tries s)).
      destruct (lockfile_loop fuel _ _ _ _ _ _ _) as [[r s'] t].
      unfold final in *. cbn [fst snd] in *.
      etrans; [apply next_round_files|exact IH].
    + unfold final, set_heap, set_lock, set_handles. cbn [fst snd files].
      apply opened_files_mono.
Qed.

Lemma Forall_sep_join (P : Event → Prop) sep ts :
  Forall P sep → Forall (Forall P) ts → Forall P (sep_join sep ts).
Proof.
  intros Hsep Hts. induction Hts as [|t ts Ht Hts IH]; [constructor|].
  destruct ts as [|t' ts]; [done|].
  change (Forall P (t ++ sep ++ sep_join sep (t' :: ts))).
  by rewrite !Forall_app.
Qed.

End Files.

Lemma acquire_shape P max_retries retry_delay shared s :
  0 ≤ max_retries →
  ∃ ts, lockfile_acquire (VStr P) max_retries retry_delay shared s
        = (result (lockfile_acquire (VStr P) max_retries retry_delay shared s),
           final (lockfile_acquire (VStr P) max_retries retry_delay shared s),
           sep_join [EvSleep retry_delay] ts)
        ∧ Forall (Forall (names_only (P +:+ ".lock"))) ts.
Proof.
  intros Hmr. rewrite lockfile_acquire_str.
  destruct (loop_run (P +:+ ".lock") shared retry_delay (1 + max_retries)
              (Z.to_nat (1 + max_retries)) 1 s)
    as (fails & last & lock & s' & -> & Hf & _ & Hlock); [lia..|].
  exists (fails ++ [last]). split; [done|].
  apply Forall_app. split.
  - eapply Forall_impl; [exact Hf|]. intros t [fd ->]. by repeat constructor.
  - constructor; [|constructor].
    destruct lock; destruct Hlock as [[fd ->] _]; by repeat constructor.
Qed.

Lemma acquire_holds P max_retries retry_delay shared s :
  0 ≤ max_retries →
  ∃ lock s' t,
    lockfile_acquire (VStr P) max_retries retry_delay shared s = (Val lock, s', t)
    ∧ match lock with
      | Some l => holds s' l (P +:+ ".lock") shared
      | None => True
      end.
Proof.
  intros Hmr. rewrite lockfile_acquire_str.
  destruct (loop_run (P +:+ ".lock") shared retry_delay (1 + max_retries)
              (Z.to_nat (1 + max_retries)) 1 s)
    as (fails & last & lock & s' & -> & _ & _ & Hlock); [lia..|].
  eexists lock, s', _. split; [done|]. destruct lock; [apply Hlock|done].
Qed.

(** C5. An attempt opens its path in append mode: afterwards the name exists;
    a name that existed still denotes the same file, and no file has changed;
    a name that was free denotes a new, empty file, and no other file has
    changed. The attempts of [lockfile] on [P] are attempts on [P] followed by
    [".lock"]: that is the only path its system calls name, every file that
    existed keeps its text throughout, the first attempt is [LockFile] on that
    path, and the lock obtained is a lock on the handle opened under that
    path, on the inode the path denotes. *)
Theorem C5_lock_file_path P max_retries retry_delay shared s :
  let p := P +:+ ".lock" in
  let r := lockfile_acquire (VStr P) max_retries retry_delay shared s in
  (∀ s0 cleanup,
     let s1 := final (LockFile_init p shared cleanup s0) in
     (∃ fd, head (trace (LockFile_init p shared cleanup s0)) = Some (EvOpen p fd))
     ∧ is_Some (names s1 !! p)
     ∧ match names s0 !! p with
       | Some ino => names s1 = names s0 ∧ files s1 = files s0
       | None => ∃ ino, files s0 !! ino = None
                        ∧ names s1 = <[p := ino]> (names s0)
                        ∧ files s1 = <[ino := ""]> (files s0)
       end)
  ∧ Forall (names_only p) (trace r)
  ∧ files s ⊆ files (final r)
  ∧ (0 ≤ max_retries → ∀ l s' t,
       LockFile_init p shared true s = (Val l, s', t) →
       r = (Val (Some l), s', t))
  ∧ (∀ l, result r = Val (Some l) → holds (final r) l p shared).
Proof.
  intros p r. split; [|split; [|split; [|split]]].
  - intros s0 cleanup s1. subst s1.
    destruct (init_names_files p shared cleanup s0) as [-> ->].
    split; [rewrite LockFile_init_run; cbv zeta;
            destruct (contended _ _ _ _); by eexists|].
    rewrite opened_names, opened_files. unfold opened_ino.
    split; [rewrite lookup_insert_eq; by eexists|].
    destruct (names s0 !! p) as [ino|] eqn:Hn; cbn [default].
    + split; [by apply insert_id|done].
    + exists (new_ino s0). split; [apply new_ino_free|done].
  - subst r. destruct (Z.le_gt_cases 0 max_retries) as [Hmr|Hmr].
    + destruct (acquire_shape P max_retries retry_delay shared s Hmr)
        as (ts & -> & Hts). unfold trace. cbn [snd].
      apply Forall_sep_join; [by repeat constructor|exact Hts].
    + rewrite lockfile_acquire_str, loop_exit; [constructor|].
      cbn [is_None andb]. lia.
  - subst r. rewrite lockfile_acquire_str. apply loop_files.
  - intros Hmr l s' t Hinit. subst r. rewrite lockfile_acquire_str.
    replace (Z.to_nat (1 + max_retries)) with (S (Z.to_nat max_retries)) by lia.
    rewrite loop_step by lia.
    rewrite LockFile_init_run in Hinit. cbv zeta in Hinit. fold p.
    destruct (contended _ _ _ _); [discriminate|]. by injection Hinit as <- <- <-.
  - intros l Hres. subst r.
    destruct (Z.le_gt_cases 0 max_retries) as [Hmr|Hmr].
    + destruct (acquire_holds P max_retries retry_delay shared s Hmr)
        as (lock & s' & t & Hrun & Hlock).
      rewrite Hrun in Hres |- *. unfold result, final in *. cbn [fst snd] in *.
      injection Hres as ->. exact Hlock.
    + rewrite lockfile_acquire_str, loop_exit in Hres; [done|].
      cbn [is_None andb]. lia.
Qed.

Lemma C5_lock_file_path_witness :
  lockfile_acquire (VStr "P") 0 1 false s_empty
  = (Val (Some 0%nat), s_held,
     [EvOpen "P.lock" 0%nat; EvFlock 0%nat _exclusive true])
  ∧ holds s_held 0%nat "P.lock" false.
Proof.
  destruct (C5_lock_file_path "P" 0 1 false s_empty) as (_ & _ & _ & H4 & H5).
  split.
  - apply H4; [lia|]. vm_compute. reflexivity.
  - apply (H5 0%nat). vm_compute. reflexivity.
Defined.

(** An existing lock-file keeps its text across an acquisition. *)
Example existing_text_kept :
  let s := mkState {[ "P.lock" := 7%nat ]} {[ 7%nat := "pid 42" ]} ∅ ∅ 0%N [] in
  let r := lockfile_acquire (VStr "P") 0 1 true s in
  result r = Val (Some 0%nat)
  ∧ names (final r) !! "P.lock" = Some 7%nat
  ∧ files (final r) !! 7%nat = Some "pid 42".
Proof. by vm_compute. Qed.

(** ** The scenarios of the test suite *)

(** With the defaults, on a free path, [lockfile] yields a lock. *)
Example test_lockfile :
  result (lockfile (VStr "P") default_max_retries default_retry_delay false
            VNone (λ lock, ret lock) s_empty)
  = Val (Some 0%nat).
Proof. by vm_compute. Qed.

(** A second exclusive request on the same path, without retry, yields
    [None]. *)
Example test_lockfile_failure :
  result (lockfile (VStr "P") default_max_retries default_retry_delay false VNone
            (λ lock1, lockfile (VStr "P") 0 default_retry_delay false VNone
               (λ lock2, ret (lock1, lock2))) s_empty)
  = Val (Some 0%nat, None).
Proof. by vm_compute. Qed.

(** Shared locks do not exclude each other, and exclude an exclusive one. *)
Example test_shared_lockfile :
  result (lockfile (VStr "P") default_max_retries default_retry_delay true VNone
            (λ lock1, lockfile (VStr "P") 0 default_retry_delay true VNone
               (λ lock2, lockfile (VStr "P") 0 default_retry_delay false VNone
                  (λ lock3, ret (lock1, lock2, lock3)))) s_empty)
  = Val (Some 0%nat, Some 1%nat, None).
Proof. by vm_compute. Qed.

(** An exclusive lock excludes a shared one. *)
Example test_shared_lockfile_failure :
  result (lockfile (VStr "P") default_max_retries default_retry_delay false VNone
            (λ lock1, lockfile (VStr "P") 0 default_retry_delay true VNone
               (λ lock2, ret (lock1, lock2))) s_empty)
  = Val (Some 0%nat, None).
Proof. by vm_compute. Qed.

(** * Further properties of the module *)

(** ** Who excludes whom *)

Section Exclusion.

Implicit Types (s : State) (p : string).

Lemma contended_true s fd ino req :
  contended s fd ino req = true
  ↔ ∃ fd' h', handles s !! fd' = Some h' ∧ fd' ≠ fd ∧ h_ino h' = ino
              ∧ conflicts req (h_lock h') = true.
Proof.
  unfold contended. rewrite bool_decide_eq_true. unfold map_Exists.
  split; intros (fd' & h' & H); exists fd', h'; tauto.
Qed.

Lemma contended_ext s1 s2 fd ino req :
  handles s1 = handles s2 → contended s1 fd ino req = contended s2 fd ino req.
Proof. unfold contended. by intros ->. Qed.

(** What a granted attempt leaves behind. *)
Lemma init_granted p a c s l s1 t1 :
  LockFile_init p a c s = (Val l, s1, t1) →
  contended (opened p s) (new_fd s) (opened_ino p s) (lock_mode a) = false
  ∧ l = new_loc s
  ∧ t1 = [EvOpen p (new_fd s); EvFlock (new_fd s) (lock_op a) true]
  ∧ handles s1
    = <[new_fd s := mkHandle (opened_ino p s) p (lock_mode a)]> (handles s)
  ∧ names s1 = <[p := opened_ino p s]> (names s)
  ∧ heap s1 = <[l := mkLockFile (Some (new_fd s)) p a c]> (heap s).
Proof.
  rewrite LockFile_init_run. cbv zeta.
  destruct (contended _ _ _ _); [discriminate|]. intros [= <- <- <-].
  split; [done|]. split; [done|]. split; [done|].
  unfold set_heap, set_lock, set_handles. cbn [handles names heap h_ino h_name].
  rewrite opened_handles, insert_insert_eq, opened_names, opened_heap. done.
Qed.

End Exclusion.

(** X1. Right after [LockFile(p, shared=a)] has been granted, a second
    [LockFile(p, shared=b)] is granted when both are shared, and gives a
    distinct object; in every other combination it raises [LockError] and
    leaves the table of open handles as it was. *)
Theorem X1_second_attempt p a b c1 c2 s l s1 t1 :
  LockFile_init p a c1 s = (Val l, s1, t1) →
  if a && b
  then ∃ l2 s2 t2, LockFile_init p b c2 s1 = (Val l2, s2, t2) ∧ l2 ≠ l
  else ∃ s2 t2, LockFile_init p b c2 s1 = (Exc (LockError p), s2, t2)
                ∧ handles s2 = handles s1.
Proof.
  intros Hinit.
  destruct (init_granted p a c1 s l s1 t1 Hinit)
    as (Hfree & -> & _ & Hh & Hn & Hheap).
  set (fd := new_fd s) in *. set (ino := opened_ino p s) in *.
  assert (Hino : opened_ino p s1 = ino).
  { unfold opened_ino at 1. by rewrite Hn, lookup_insert_eq. }
  assert (Hfd : new_fd s1 ≠ fd).
  { intros E. pose proof (new_fd_free s1) as Hnone.
    by rewrite E, Hh, lookup_insert_eq in Hnone. }
  assert (Hh2 : handles (opened p s1)
                = <[new_fd s1 := mkHandle ino p Unlocked]>
                    (<[fd := mkHandle ino p (lock_mode a)]> (handles s))).
  { by rewrite opened_handles, Hino, Hh. }
  rewrite LockFile_init_run. cbv zeta. rewrite Hino.
  destruct (a && b) eqn:Hab.
  - apply andb_true_iff in Hab as [-> ->].
    destruct (contended (opened p s1) _ _ _) eqn:Hc.
    + exfalso. apply contended_true in Hc as (fd' & h' & Hl & Hne & Hi & Hcf).
      rewrite Hh2, lookup_insert_ne in Hl by done.
      destruct (decide (fd' = fd)) as [->|Hne'].
      * rewrite lookup_insert_eq in Hl. by injection Hl as <-.
      * rewrite lookup_insert_ne in Hl by done.
        assert (contended (opened p s) fd ino (lock_mode true) = true) as Hc';
          [|by rewrite Hc' in Hfree].
        apply contended_true. exists fd', h'.
        rewrite opened_handles, lookup_insert_ne by done. done.
    + eexists _, _, _. split; [reflexivity|].
      intros E. pose proof (new_loc_free s1) as Hnone.
      by rewrite E, Hheap, lookup_insert_eq in Hnone.
  - assert (Hc : contended (opened p s1) (new_fd s1) ino (lock_mode b) = true).
    { apply contended_true. exists fd, (mkHandle ino p (lock_mode a)).
      rewrite Hh2, lookup_insert_ne, lookup_insert_eq by done.
      split; [done|]. split; [done|]. split; [done|].
      by destruct a, b. }
    rewrite Hc. eexists _, _. split; [reflexivity|]. done.
Qed.

Lemma X1_second_attempt_witness :
  ∃ s2 t2, LockFile_init "P.lock" true true s_held
           = (Exc (LockError "P.lock"), s2, t2)
           ∧ handles s2 = handles s_held.
Proof.
  apply (X1_second_attempt "P.lock" false true true true s_empty 0%nat s_held
           [EvOpen "P.lock" 0%nat; EvFlock 0%nat _exclusive true]).
  vm_compute. reflexivity.
Defined.

(** ** Acquire, then release *)

Lemma after_upgrade_delete f s :
  delete f (handles (after_upgrade f s)) = delete f (handles s).
Proof.
  unfold after_upgrade. rewrite flock_exclusive_run.
  destruct (handles s !! f) as [h|]; [|done].
  destruct (decide _); [done|].
  destruct (contended _ _ _ _); unfold final, set_lock, set_handles;
    cbn [fst snd handles]; apply delete_insert_eq.
Qed.

(** X2. A release that follows the acquisition at once never fails, whatever
    the mode and the [cleanup] flag: it returns normally, the table of open
    handles is again what it was before the acquisition, and the object is
    marked released. The lock-file is then gone when [cleanup] is set and the
    lock was exclusive or no other holder refused the upgrade; otherwise its
    name stays, bound to the file that was locked. *)
Theorem X2_acquire_release p a c s l s1 t1 :
  LockFile_init p a c s = (Val l, s1, t1) →
  let r := LockFile_close l s1 in
  result r = Val tt
  ∧ last (trace r) = Some (EvClose (new_fd s))
  ∧ handles (final r) = handles s
  ∧ heap (final r) !! l = Some (mkLockFile None p a c)
  ∧ names (final r)
    = if c && (negb a || upgrade_ok s1 (new_fd s))
      then delete p (names s)
      else <[p := opened_ino p s]> (names s).
Proof.
  intros Hinit r.
  destruct (init_granted p a c s l s1 t1 Hinit)
    as (_ & -> & _ & Hh & Hn & Hheap).
  set (fd := new_fd s) in *. set (o := mkLockFile (Some fd) p a c).
  assert (Hl : heap s1 !! new_loc s = Some o) by (rewrite Hheap; apply lookup_insert_eq).
  assert (Hp : names s1 !! p = Some (opened_ino p s))
    by (rewrite Hn; apply lookup_insert_eq).
  assert (Hdel : delete fd (handles s1) = handles s).
  { rewrite Hh, delete_insert_eq. apply delete_id, new_fd_free. }
  assert (Hdn : delete p (names s1) = delete p (names s))
    by (rewrite Hn; apply delete_insert_eq).
  subst r. rewrite (LockFile_close_run (new_loc s) s1 o fd Hl eq_refl).
  cbn [self_cleanup self_shared self_path o]. rewrite Hp.
  unfold result, final, trace, released, set_heap, set_handles, set_names.
  destruct c, a; cbn [andb orb negb fst snd];
    try destruct (upgrade_ok s1 fd); cbn [negb fst snd handles heap names];
    rewrite ?after_upgrade_names, ?after_upgrade_delete, ?Hdel, ?Hdn, ?Hn,
            ?lookup_insert_eq;
    done.
Qed.

Lemma X2_acquire_release_witness :
  result (LockFile_close 0%nat s_held) = Val tt
  ∧ handles (final (LockFile_close 0%nat s_held)) = handles s_empty
  ∧ names (final (LockFile_close 0%nat s_held)) = delete "P.lock" (names s_empty).
Proof.
  destruct (X2_acquire_release "P.lock" false true s_empty 0%nat s_held
              [EvOpen "P.lock" 0%nat; EvFlock 0%nat _exclusive true])
    as (H1 & _ & H3 & _ & H5).
  - vm_compute. reflexivity.
  - exact (conj H1 (conj H3 H5)).
Defined.

(** ** What can go wrong, and what cannot *)

Lemma close_outcome l s :
  result (LockFile_close l s) = Val tt
  ∨ result (LockFile_close l s) = Exc (OSError ENOENT).
Proof.
  destruct (heap s !! l) as [o|] eqn:Hl.
  2:{ rewrite LockFile_close_released; [by left|]. intros o. by rewrite Hl. }
  destruct (self_f o) as [f|] eqn:Hf.
  2:{ rewrite LockFile_close_released; [by left|]. intros o'. congruence. }
  rewrite (LockFile_close_run l s o f Hl Hf).
  destruct (self_cleanup o); [|by left].
  destruct (self_shared o && negb (upgrade_ok s f)); [by left|].
  destruct (names s !! self_path o); [by left|by right].
Qed.

Lemma acquire_outcome pv max_retries retry_delay shared s :
  (∃ lock, result (lockfile_acquire pv max_retries retry_delay shared s) = Val lock)
  ∨ ((∀ p, pv ≠ VStr p)
     ∧ lockfile_acquire pv max_retries retry_delay shared s = (Exc TypeError, s, [])).
Proof.
  destruct pv as [| | |p|]; try (right; by split).
  left.
  destruct (lockfile_acquire_total p max_retries retry_delay shared s)
    as (lock & s1 & t1 & ->). by exists lock.
Qed.

(** X3. Every [flock] of the module carries [LOCK_NB], so nothing in it waits
    for a lock: [LockFile], [close] and the retry loop always come to an end,
    and a [with lockfile(...)] scope can only fail to end if its block
    does. *)
Theorem X3_never_blocks {R} pv max_retries retry_delay shared error
    (block : option nat → M R) s :
  (∀ p a c, result (LockFile_init p a c s) ≠ Hang)
  ∧ (∀ l, result (LockFile_close l s) ≠ Hang)
  ∧ result (lockfile_acquire pv max_retries retry_delay shared s) ≠ Hang
  ∧ ((∀ lock s1, result (block lock s1) ≠ Hang) →
     result (lockfile pv max_retries retry_delay shared error block s) ≠ Hang).
Proof.
  split; [|split; [|split]].
  - intros p a c. rewrite LockFile_init_run. cbv zeta.
    by destruct (contended _ _ _ _).
  - intros l. by destruct (close_outcome l s) as [-> | ->].
  - destruct (acquire_outcome pv max_retries retry_delay shared s)
      as [[lock ->]|[_ ->]]; done.
  - intros Hblock.
    destruct (acquire_outcome pv max_retries retry_delay shared s)
      as [[lock Hres]|[_ Hrun]].
    2:{ unfold lockfile, bind. by rewrite Hrun. }
    destruct (lockfile_acquire pv _ _ _ s) as [[r1 s1] t1] eqn:Hrun.
    unfold result in Hres. cbn [fst snd] in Hres. subst r1.
    rewrite (lockfile_run pv _ _ _ error block s lock s1 t1 Hrun).
    unfold try_finally.
    assert (Hbody : result ((if truthy error && is_None lock
                             then py_raise error else block lock) s1) ≠ Hang).
    { destruct (truthy error && is_None lock); [|apply Hblock].
      unfold py_raise, raise. by destruct (is_exception error). }
    assert (Hfin : ∀ s2, result (match lock with
                                 | Some l => LockFile_close l
                                 | None => ret tt
                                 end s2) ≠ Hang).
    { intros s2. destruct lock as [l|]; [|done].
      by destruct (close_outcome l s2) as [-> | ->]. }
    destruct ((if truthy error && is_None lock then py_raise error
               else block lock) s1) as [[r2 s2] t2].
    specialize (Hfin s2).
    destruct (match lock with Some l => LockFile_close l | None => ret tt end s2)
      as [[r3 s3] t3].
    unfold result in *. cbn [fst snd] in *.
    destruct r2; [| |done]; by destruct r3.
Qed.

Lemma X3_never_blocks_witness :
  result (lockfile (VStr "P") 2 1 false VNone (λ lock, ret lock) s_held) ≠ Hang.
Proof.
  apply (X3_never_blocks (VStr "P") 2 1 false VNone (λ lock, ret lock) s_held).
  intros lock s1. discriminate.
Defined.



(** ** Edge inputs *)

(** X5. A negative [max_retries] allows no attempt at all: the loop makes no
    system call, leaves the state alone and yields [None], so that the scope
    is the block run with [None] (or [raise error]), on a path that was never
    locked. *)
Theorem X5_negative_retries {R} path max_retries retry_delay shared error
    (block : option nat → M R) s :
  max_retries < 0 →
  lockfile_acquire (VStr path) max_retries retry_delay shared s = (Val None, s, [])
  ∧ lockfile (VStr path) max_retries retry_delay shared error block s
    = (if truthy error then py_raise error else block None) s.
Proof.
  intros Hmr.
  assert (Hacq : lockfile_acquire (VStr path) max_retries retry_delay shared s
                 = (Val None, s, [])).
  { rewrite lockfile_acquire_str, loop_exit; [done|]. cbn [is_None andb]. lia. }
  split; [exact Hacq|].
  rewrite (lockfile_unavailable _ _ _ _ error block s s [] Hacq).
  by destruct ((if truthy error then py_raise error else block None) s)
    as [[r2 s2] t2].
Qed.

Lemma X5_negative_retries_witness :
  lockfile_acquire (VStr "P") (-1) 1 false s_empty = (Val None, s_empty, [])
  ∧ lockfile (VStr "P") (-1) 1 false VNone (λ lock, ret lock) s_empty
    = (Val None, s_empty, []).
Proof.
  apply (X5_negative_retries "P" (-1) 1 false VNone (λ lock, ret lock) s_empty).
  lia.
Defined.

(** X6. When the lock path of a wrapped call is not a string (no [path]
    configured and a first argument such as [None] or a number, or a truthy
    non-string [path]), the call raises [TypeError] at [path + '.lock']:
    no system call is made, the target is not invoked and the marker is not
    returned. *)
Theorem X6_path_not_a_string path max_retries retry_delay shared marker error
    (func : Args → Kwargs → M PyVal) args kwargs s v :
  path_or_first path args s = (Val v, s, []) →
  (∀ p, v ≠ VStr p) →
  lockfunc path max_retries retry_delay shared marker error func args kwargs s
  = (Exc TypeError, s, []).
Proof.
  intros Hpath Hv. unfold lockfunc, bind at 1. rewrite Hpath.
  unfold lockfile, bind, lockfile_acquire, add_lock_suffix.
  destruct v as [| | |p|]; try done. by destruct (Hv p).
Qed.

Lemma X6_path_not_a_string_witness :
  lockfunc VNone 0 1 false VNone VNone slow_target [VNone] [] s_empty
  = (Exc TypeError, s_empty, []).
Proof.
  apply (X6_path_not_a_string VNone 0 1 false VNone VNone slow_target
           [VNone] [] s_empty VNone).
  - reflexivity.
  - intros p. discriminate.
Defined.

(** ** Time spent waiting *)

Section Clock.

Implicit Types (s : State) (p : string).

Lemma opened_clock p s :
  clock (opened p s) = clock s ∧ pending (opened p s) = pending s.
Proof. unfold opened, os_open_append. by destruct (names s !! p). Qed.

Lemma init_clock p a c s :
  clock (final (LockFile_init p a c s)) = clock s
  ∧ pending (final (LockFile_init p a c s)) = pending s.
Proof.
  rewrite LockFile_init_run. cbv zeta.
  destruct (contended _ _ _ _); apply opened_clock.
Qed.

Lemma after_upgrade_clock f s :
  clock (after_upgrade f s) = clock s ∧ pending (after_upgrade f s) = pending s.
Proof.
  unfold after_upgrade. rewrite flock_exclusive_run.
  destruct (handles s !! f) as [h|]; [|done].
  destruct (decide _); [done|]. by destruct (contended _ _ _ _).
Qed.

Lemma close_clock l s :
  clock (final (LockFile_close l s)) = clock s
  ∧ pending (final (LockFile_close l s)) = pending s.
Proof.
  destruct (heap s !! l) as [o|] eqn:Hl.
  2:{ rewrite LockFile_close_released; [done|]. intros o. by rewrite Hl. }
  destruct (self_f o) as [f|] eqn:Hf.
  2:{ rewrite LockFile_close_released; [done|]. intros o'. congruence. }
  rewrite (LockFile_close_run l s o f Hl Hf).
  destruct (after_upgrade_clock f s) as [Hc Hp].
  destruct (self_cleanup o); [|done].
  destruct (self_shared o); cbn [andb];
    [destruct (upgrade_ok s f); cbn [negb]|];
    try destruct (names s !! self_path o);
    unfold final, released, set_heap, set_handles, set_names;
    cbn [fst snd clock pending]; by rewrite ?Hc, ?Hp.
Qed.

Lemma run_actions_clock acts : ∀ s, clock (foldl run_action s acts) = clock s.
Proof.
  induction acts as [|a acts IH]; intros s; [done|]. cbn [foldl].
  rewrite IH. destruct a as [p sh|l|p]; cbn [run_action].
  - apply init_clock.
  - apply close_clock.
  - unfold os_remove. by destruct (names s !! p).
Qed.

Lemma next_round_clock p d max_tries tries s :
  clock (next_round p d max_tries tries s)
  = (clock s + (if (tries + 1 <=? max_tries)%Z then d else 0))%N.
Proof.
  unfold next_round.
  assert (H : clock (refused p s) = clock s) by apply opened_clock.
  destruct (tries + 1 <=? max_tries); [|rewrite H; lia].
  unfold final, time_sleep. cbn [fst snd]. rewrite run_actions_clock.
  cbn [clock]. by rewrite H.
Qed.

(** The clock moves by [retry_delay] at each pause of the loop and at no
    other moment, whatever the other processes do meanwhile. *)
Lemma loop_clock p shared d max_tries fuel : ∀ tries s,
  let r := lockfile_loop fuel p shared d max_tries tries None s in
  clock (final r)
  = (clock s + d * N.of_nat (length (List.filter is_sleep (trace r))))%N.
Proof.
  induction fuel as [|fuel IH]; intros tries s r; subst r.
  - cbn [lockfile_loop is_None andb].
    destruct (tries <=? max_tries); cbn; lia.
  - destruct (tries <=? max_tries) eqn:Hle; [|rewrite loop_exit by done; cbn; lia].
    rewrite loop_step by done.
    destruct (contended _ _ _ _); [|cbn; rewrite (proj1 (opened_clock p s)); lia].
    specialize (IH (tries + 1) (next_round p d max_tries tries s)).
    cbv zeta in IH. rewrite next_round_clock in IH.
    destruct (lockfile_loop fuel _ _ _ _ _ _ _) as [[r s'] t].
    unfold final, trace in *. cbn [fst snd] in *. rewrite IH.
    rewrite !List.filter_app, !length_app.
    destruct (tries + 1 <=? max_tries); cbn; lia.
Qed.

End Clock.

(** X7. With a non-negative [max_retries], the time the retry loop of
    [lockfile] spends is [retry_delay] times the number of refused attempts
    that were followed by another one: never more than
    [max_retries * retry_delay], and exactly that much when it gives up with
    [None]. *)
Theorem X7_waiting_time path max_retries retry_delay shared s :
  0 ≤ max_retries →
  let r := lockfile_acquire (VStr path) max_retries retry_delay shared s in
  (clock (final r) ≤ clock s + retry_delay * Z.to_N max_retries)%N
  ∧ (clock s ≤ clock (final r))%N
  ∧ (result r = Val None →
     clock (final r) = (clock s + retry_delay * Z.to_N max_retries)%N).
Proof.
  intros Hmr r. subst r. rewrite lockfile_acquire_str.
  pose proof (loop_clock (path +:+ ".lock") shared retry_delay
                (1 + max_retries) (Z.to_nat (1 + max_retries)) 1 s) as Hclock.
  cbv zeta in Hclock. rewrite Hclock. clear Hclock.
  destruct (loop_run (path +:+ ".lock") shared retry_delay (1 + max_retries)
              (Z.to_nat (1 + max_retries)) 1 s)
    as (fails & last & lock & s' & -> & Hf & Hlen & Hlock); [lia..|].
  unfold trace, result. cbn [fst snd].
  rewrite sleeps_sep_join, length_replicate.
  - split; [|split]; [nia|lia|].
    intros [= ->]. destruct Hlock as [_ Hn].
    replace (N.of_nat (length fails)) with (Z.to_N max_retries) by lia. done.
  - eapply Forall_impl; [exact Hf|]. intros t Ht.
    eapply attempt_no_sleep. by left.
  - destruct lock; eapply attempt_no_sleep; [right|left]; apply Hlock.
Qed.

Lemma X7_waiting_time_witness :
  let r := lockfile_acquire (VStr "P") 3 5 false s_held in
  (clock (final r) ≤ clock s_held + 5 * Z.to_N 3)%N
  ∧ (clock s_held ≤ clock (final r))%N
  ∧ (result r = Val None → clock (final r) = (clock s_held + 5 * Z.to_N 3)%N).
Proof. apply (X7_waiting_time "P" 3 5 false s_held). lia. Defined.

(** The lock stays busy: four attempts, three pauses of five ticks. *)
Example gives_up_after_fifteen_ticks :
  let r := lockfile_acquire (VStr "P") 3 5 false s_held in
  result r = Val None ∧ clock (final r) = 15%N.
Proof. by vm_compute. Qed.

(** ** A lock that nobody releases *)

Section Busy.

Variables (p : string) (shared : bool) (d : N) (max_tries : Z).

Implicit Types (s : State) (tries : Z).

Lemma next_round_quiet tries s :
  pending s = [] →
  handles (next_round p d max_tries tries s) = handles s
  ∧ heap (next_round p d max_tries tries s) = heap s
  ∧ names (next_round p d max_tries tries s) = <[p := opened_ino p s]> (names s)
  ∧ pending (next_round p d max_tries tries s) = [].
Proof.
  intros Hq. unfold next_round.
  assert (HR : pending (refused p s) = []).
  { unfold refused, set_handles. cbn [pending].
    by rewrite (proj2 (opened_clock p s)). }
  assert (H : handles (refused p s) = handles s
              ∧ heap (refused p s) = heap s
              ∧ names (refused p s) = <[p := opened_ino p s]> (names s)).
  { unfold refused, set_handles. cbn [handles heap names].
    by rewrite opened_heap, opened_names. }
  destruct (tries + 1 <=? max_tries); [|tauto].
  unfold final, time_sleep. cbn [fst snd]. rewrite HR. cbn. tauto.
Qed.

Lemma busy_next_round tries s :
  pending s = [] →
  contended (opened p s) (new_fd s) (opened_ino p s) (lock_mode shared) = true →
  let s' := next_round p d max_tries tries s in
  contended (opened p s') (new_fd s') (opened_ino p s') (lock_mode shared) = true.
Proof.
  intros Hq Hbusy s'.
  destruct (next_round_quiet tries s Hq) as (Hh & _ & Hn & _). fold s' in Hh, Hn.
  assert (Hino : opened_ino p s' = opened_ino p s).
  { unfold opened_ino at 1. by rewrite Hn, lookup_insert_eq. }
  assert (Hfd : new_fd s' = new_fd s) by (unfold new_fd; by rewrite Hh).
  rewrite Hino, Hfd, <- Hbusy. apply contended_ext.
  by rewrite !opened_handles, Hino, Hfd, Hh.
Qed.

Lemma loop_busy fuel : ∀ tries s,
  tries ≤ max_tries → max_tries - tries < Z.of_nat fuel →
  pending s = [] →
  contended (opened p s) (new_fd s) (opened_ino p s) (lock_mode shared) = true →
  ∃ s' t, lockfile_loop fuel p shared d max_tries tries None s = (Val None, s', t)
          ∧ handles s' = handles s ∧ heap s' = heap s ∧ pending s' = [].
Proof.
  induction fuel as [|fuel IH]; intros tries s Hle Hfuel Hq Hbusy; [lia|].
  rewrite loop_step by lia. rewrite Hbusy.
  destruct (next_round_quiet tries s Hq) as (Hh & Hheap & _ & Hq').
  destruct (tries + 1 <=? max_tries) eqn:Hnext.
  - destruct (IH (tries + 1) (next_round p d max_tries tries s))
      as (s' & t & -> & Hh' & Hheap' & Hq''); [lia|lia|done| |].
    + by apply busy_next_round.
    + eexists _, _. split; [reflexivity|]. split; [congruence|].
      split; [congruence|done].
  - rewrite loop_exit by (cbn [is_None andb]; done).
    eexists _, _. split; [reflexivity|]. done.
Qed.

End Busy.

(** X8. If the first attempt is refused and no other process does anything
    meanwhile, the lock stays busy: [lockfile] uses up its attempts and gives
    [None] after [max_retries * retry_delay] of waiting, and leaves neither an
    open handle nor an object behind. *)
Theorem X8_busy_stays_busy path max_retries retry_delay shared s e s0 t0 :
  0 ≤ max_retries →
  pending s = [] →
  LockFile_init (path +:+ ".lock") shared true s = (Exc e, s0, t0) →
  ∃ s' t,
    lockfile_acquire (VStr path) max_retries retry_delay shared s
    = (Val None, s', t)
    ∧ handles s' = handles s
    ∧ heap s' = heap s
    ∧ clock s' = (clock s + retry_delay * Z.to_N max_retries)%N.
Proof.
  intros Hmr Hq Hinit. rewrite LockFile_init_run in Hinit. cbv zeta in Hinit.
  destruct (contended _ _ _ _) eqn:Hbusy; [|discriminate]. clear Hinit.
  pose proof (loop_clock (path +:+ ".lock") shared retry_delay
                (1 + max_retries) (Z.to_nat (1 + max_retries)) 1 s) as Hclock.
  cbv zeta in Hclock.
  destruct (loop_busy (path +:+ ".lock") shared retry_delay (1 + max_retries)
              (Z.to_nat (1 + max_retries)) 1 s)
    as (s' & t & Hrun & Hh & Hheap & _); [lia|lia|done|done|].
  destruct (loop_run (path +:+ ".lock") shared retry_delay (1 + max_retries)
              (Z.to_nat (1 + max_retries)) 1 s)
    as (fails & last & lock & s'' & Hrun' & Hf & _ & Hlock); [lia..|].
  rewrite Hrun in Hrun', Hclock. injection Hrun' as <- <- ->.
  destruct Hlock as [Hlast Hn].
  unfold final, trace in Hclock. cbn [fst snd] in Hclock.
  rewrite sleeps_sep_join, length_replicate in Hclock.
  - exists s', (sep_join [EvSleep retry_delay] (fails ++ [last])).
    rewrite lockfile_acquire_str. split; [exact Hrun|].
    split; [exact Hh|]. split; [exact Hheap|].
    rewrite Hclock. f_equal. f_equal. lia.
  - eapply Forall_impl; [exact Hf|]. intros t' Ht'.
    eapply attempt_no_sleep. by left.
  - eapply attempt_no_sleep. by left.
Qed.

Lemma X8_busy_stays_busy_witness :
  ∃ s' t,
    lockfile_acquire (VStr "P") 3 5 false s_held = (Val None, s', t)
    ∧ handles s' = handles s_held
    ∧ heap s' = heap s_held
    ∧ clock s' = (clock s_held + 5 * Z.to_N 3)%N.
Proof.
  apply (X8_busy_stays_busy "P" 3 5 false s_held (LockError "P.lock") s_held
           [EvOpen "P.lock" 1%nat; EvFlock 1%nat _exclusive false;
            EvClose 1%nat]).
  - lia.
  - reflexivity.
  - vm_compute. reflexivity.
Defined.

(** ** Handles and names refer to files *)

Section WellFormed.

Implicit Types (s : State) (p : string).


















End WellFormed.





(** ** Guarded calls *)

Section Guarded.

Implicit Types (s : State) (p : string).

(** While a lock is held on [p], a request that it excludes is refused. *)
Lemma held_excludes p a b c s l s1 t1 :
  LockFile_init p a c s = (Val l, s1, t1) → a && b = false →
  contended (opened p s1) (new_fd s1) (opened_ino p s1) (lock_mode b) = true.
Proof.
  intros Hinit Hab.
  destruct (init_granted p a c s l s1 t1 Hinit) as (_ & _ & _ & Hh & Hn & _).
  assert (Hino : opened_ino p s1 = opened_ino p s).
  { unfold opened_ino at 1. by rewrite Hn, lookup_insert_eq. }
  assert (Hfd : new_fd s1 ≠ new_fd s).
  { intros E. pose proof (new_fd_free s1) as Hnone.
    by rewrite E, Hh, lookup_insert_eq in Hnone. }
  apply contended_true.
  exists (new_fd s), (mkHandle (opened_ino p s) p (lock_mode a)).
  rewrite opened_handles, lookup_insert_ne, Hh, lookup_insert_eq by done.
  split; [done|]. split; [done|]. split; [by rewrite Hino|].
  by destruct a, b.
Qed.


End Guarded.



(** X12. While a lock is held on the lock-file of [P], a wrapped call that
    asks for a lock it excludes, with no retry and a falsy [error], returns
    the marker without running the target, and leaves the handles and the
    objects as they were. *)
Theorem X12_guarded_call_excluded path retry_delay shared marker error
    (func : Args → Kwargs → M PyVal) args kwargs P a c s l s1 t1 :
  LockFile_init (P +:+ ".lock") a c s = (Val l, s1, t1) →
  a && shared = false →
  path_or_first path args s1 = (Val (VStr P), s1, []) →
  truthy error = false →
  let call := lockfunc path 0 retry_delay shared marker error func args kwargs
                s1 in
  result call = Val marker
  ∧ trace call
    = [EvOpen (P +:+ ".lock") (new_fd s1);
       EvFlock (new_fd s1) (lock_op shared) false; EvClose (new_fd s1)]
  ∧ handles (final call) = handles s1
  ∧ heap (final call) = heap s1.
Proof.
  intros Hinit Hab Hpath Herr call. set (p := P +:+ ".lock") in *.
  pose proof (held_excludes p a shared c s l s1 t1 Hinit Hab) as Hbusy.
  assert (Hacq : lockfile_acquire (VStr P) 0 retry_delay shared s1
                 = (Val None, refused p s1,
                    [EvOpen p (new_fd s1);
                     EvFlock (new_fd s1) (lock_op shared) false;
                     EvClose (new_fd s1)])).
  { rewrite lockfile_acquire_str. fold p.
    change (Z.to_nat (1 + 0)) with 1%nat. rewrite loop_step by done.
    rewrite Hbusy. unfold next_round. change (1 + 1 <=? 1 + 0) with false.
    cbv iota. rewrite loop_exit by done. by rewrite !app_nil_r. }
  assert (Hcall : call = lockfile (VStr P) 0 retry_delay shared error
                    (λ lock, if is_None lock then ret marker
                             else func args kwargs) s1).
  { subst call. unfold lockfunc, bind at 1. rewrite Hpath.
    destruct (lockfile _ _ _ _ _ _ s1) as [[r s'] t]. reflexivity. }
  rewrite Hcall.
  rewrite (lockfile_unavailable (VStr P) 0 retry_delay shared error _ s1 _ _ Hacq).
  rewrite Herr. cbn [is_None]. unfold ret, result, trace, final. cbn [fst snd].
  rewrite app_nil_r. split; [done|]. split; [done|].
  unfold refused, set_handles. cbn [handles heap]. split; [done|].
  apply opened_heap.
Qed.

Lemma X12_guarded_call_excluded_witness :
  let call := lockfunc (VStr "P") 0 1 false VNone VNone
                (λ _ _, ret (VStr "In my function")) [] [] s_held in
  result call = Val VNone
  ∧ trace call
    = [EvOpen ("P" +:+ ".lock") (new_fd s_held);
       EvFlock (new_fd s_held) (lock_op false) false; EvClose (new_fd s_held)]
  ∧ handles (final call) = handles s_held
  ∧ heap (final call) = heap s_held.
Proof.
  apply (X12_guarded_call_excluded (VStr "P") 1 false VNone VNone
           (λ _ _, ret (VStr "In my function")) [] [] "P" false true
           s_empty 0%nat s_held
           [EvOpen "P.lock" 0%nat; EvFlock 0%nat _exclusive true]).
  - vm_compute. reflexivity.
  - reflexivity.
  - reflexivity.
  - reflexivity.
Defined.
